(** * SimpleBloomFilter: a shallow embedding of [bloomfilter.py]

  The development follows the layout of the Python module:

  - [Py]      the fragments of the Python run time the class relies on
              (exceptions, [str], [%], list indexing, [int()], [math.log]);
  - [MD5]     [hashlib.md5] (RFC 1321), so that [_hash] can be evaluated;
  - [Bloom]   the class [SimpleBloomFilter] itself, method by method;
  - [Bounds]  a checker for rational bounds on [exp], used to evaluate
              the sizing formulas at given configurations;
  - the properties of the class.

  Modelling conventions.

  - A Python [int] is a [Z]; a Python [float] is a real number ([R]):
    [math.log] is [ln] on the positive reals, [math.exp] is [exp] and
    [int(x)] truncates toward zero.  Rounding of binary64 arithmetic and
    the finite range of floats (infinities, NaN, [OverflowError]) are
    not part of the model, nor is the memory that [[False] * m] needs.
    The properties are stated accordingly: a property of a constructed
    filter takes the success of the constructor as a hypothesis, and a
    property of the derived integers is either an instance whose
    quotient is far from an integer, or carries a margin or a tolerance
    ([rounding_tolerance]) that covers the rounding of the few float
    operations involved.
  - An item is a [str], an [int] or a [bool] ([bool] is a subclass of
    [int], so [True] and [False] pass the annotation and the
    [isinstance] test of [_hash]).
  - A Python [str] is represented by its UTF-8 encoding, a [string] of
    bytes; [encode('utf-8')] is then the identity on the representation.
    Strings that have no UTF-8 encoding (lone surrogates) are not
    represented.
  - A method of the class is a computation in the monad [M]: it receives
    the object, and returns the object as the call left it together with
    either the returned value or the exception raised. *)

From Stdlib Require Import ZArith List String Ascii Bool Lia.
From Stdlib Require Import DecimalString Decimal DecimalPos DecimalZ.
From Stdlib Require Import Reals Lra.
Import ListNotations.

Local Open Scope Z_scope.

(* ================================================================== *)
(** * Python run-time fragments *)
(* ================================================================== *)

Module Py.

(** The exceptions that the modelled code can raise.  The last one is
    the error the specification names for a rejected configuration; no
    statement of the source raises it. *)
Inductive exn : Type :=
| ZeroDivisionError
| ValueError
| IndexError
| InvalidConfiguration.

Inductive result (A : Type) : Type :=
| Ok (a : A)
| Raise (e : exn).
Arguments Ok {A} a.
Arguments Raise {A} e.

Definition rbind {A B} (r : result A) (f : A -> result B) : result B :=
  match r with
  | Ok a => f a
  | Raise e => Raise e
  end.

(** [str(i)] for an [int]: decimal digits, with a leading [-] when
    negative. *)
Definition str_of_int (i : Z) : string :=
  NilZero.string_of_int (Z.to_int i).

(** [str(b)] for a [bool]. *)
Definition str_of_bool (b : bool) : string :=
  if b then "True" else "False".

(** [a % b] on [int]: the result has the sign of the divisor. *)
Definition int_mod (a b : Z) : result Z :=
  if b =? 0 then Raise ZeroDivisionError else Ok (a mod b).

(** [range(k)]: empty when [k <= 0]. *)
Definition range (k : Z) : list Z :=
  map Z.of_nat (seq 0 (Z.to_nat k)).

(** [[v] * m]: empty when [m <= 0]. *)
Definition list_repeat {A} (v : A) (m : Z) : list A :=
  repeat v (Z.to_nat m).

(** Index normalisation of [l[i]]: a negative index counts from the end;
    anything outside [-len, len) raises [IndexError]. *)
Definition norm_index {A} (l : list A) (i : Z) : result nat :=
  let len := Z.of_nat (List.length l) in
  if (0 <=? i) && (i <? len) then Ok (Z.to_nat i)
  else if (- len <=? i) && (i <? 0) then Ok (Z.to_nat (i + len))
  else Raise IndexError.

Fixpoint set_nth {A} (l : list A) (j : nat) (v : A) : list A :=
  match l, j with
  | [], _ => []
  | _ :: t, O => v :: t
  | h :: t, S j' => h :: set_nth t j' v
  end.

(** [l[i]] *)
Definition getitem {A} (d : A) (l : list A) (i : Z) : result A :=
  rbind (norm_index l i) (fun j => Ok (nth j l d)).

(** [l[i] = v] *)
Definition setitem {A} (l : list A) (i : Z) (v : A) : result (list A) :=
  rbind (norm_index l i) (fun j => Ok (set_nth l j v)).

(** [sum(l)] on a list of [bool]: the number of [True]. *)
Definition sum_bools (l : list bool) : Z :=
  fold_left (fun acc (b : bool) => acc + (if b then 1 else 0)) l 0.

(** Value of a hexadecimal digit; other characters count as 0 (the
    digest only holds hexadecimal digits). *)
Definition hex_value (c : ascii) : Z :=
  let v := Z.of_nat (nat_of_ascii c) in
  if (48 <=? v) && (v <=? 57) then v - 48
  else if (97 <=? v) && (v <=? 102) then v - 87
  else if (65 <=? v) && (v <=? 70) then v - 55
  else 0.

(** [int(s, 16)] on a string of hexadecimal digits. *)
Definition int_of_hex (s : string) : Z :=
  fold_left (fun acc c => 16 * acc + hex_value c)
            (list_ascii_of_string s) 0.

(** [s.encode('utf-8')]: the byte values of the representation. *)
Definition encode_utf8 (s : string) : list Z :=
  map (fun c => Z.of_nat (nat_of_ascii c)) (list_ascii_of_string s).

(** ** Floats, as real numbers *)

(** [math.log(x)]: a domain error outside the positive reals. *)
Definition math_log (x : R) : result R :=
  if Rlt_dec 0 x then Ok (ln x) else Raise ValueError.

(** [math.exp(x)] *)
Definition math_exp (x : R) : R := exp x.

(** [x / y] on floats *)
Definition float_div (x y : R) : result R :=
  if Req_dec_T y 0 then Raise ZeroDivisionError else Ok (x / y)%R.

(** [a / b] on ints: true division, a float. *)
Definition int_truediv (a b : Z) : result R :=
  if b =? 0 then Raise ZeroDivisionError else Ok (IZR a / IZR b)%R.

(** [x ** j] for a float [x] and an int [j]: zero cannot be raised to
    a negative power. *)
Definition float_pow_int (x : R) (j : Z) : result R :=
  if (j <? 0) && (if Req_dec_T x 0 then true else false)
  then Raise ZeroDivisionError
  else Ok (powerRZ x j).

(** [int(x)] for a float: truncation toward zero. *)
Definition int_of_float (x : R) : Z :=
  if Rle_dec 0 x then Zfloor x else Zceil x.

End Py.

(* ================================================================== *)
(** * hashlib.md5 *)
(* ================================================================== *)

Module MD5.

Definition w32 : Z := 2 ^ 32.

Definition add32 (x y : Z) : Z := (x + y) mod w32.

Definition not32 (x : Z) : Z := Z.lxor x (w32 - 1).

Definition rotl32 (x c : Z) : Z :=
  Z.lor (Z.shiftl x c mod w32) (Z.shiftr x (32 - c)).

(** [floor(2^32 * abs(sin(i + 1)))], i = 0..63 *)
Definition K : list Z :=
  [ 0xd76aa478; 0xe8c7b756; 0x242070db; 0xc1bdceee;
    0xf57c0faf; 0x4787c62a; 0xa8304613; 0xfd469501;
    0x698098d8; 0x8b44f7af; 0xffff5bb1; 0x895cd7be;
    0x6b901122; 0xfd987193; 0xa679438e; 0x49b40821;
    0xf61e2562; 0xc040b340; 0x265e5a51; 0xe9b6c7aa;
    0xd62f105d; 0x02441453; 0xd8a1e681; 0xe7d3fbc8;
    0x21e1cde6; 0xc33707d6; 0xf4d50d87; 0x455a14ed;
    0xa9e3e905; 0xfcefa3f8; 0x676f02d9; 0x8d2a4c8a;
    0xfffa3942; 0x8771f681; 0x6d9d6122; 0xfde5380c;
    0xa4beea44; 0x4bdecfa9; 0xf6bb4b60; 0xbebfbc70;
    0x289b7ec6; 0xeaa127fa; 0xd4ef3085; 0x04881d05;
    0xd9d4d039; 0xe6db99e5; 0x1fa27cf8; 0xc4ac5665;
    0xf4292244; 0x432aff97; 0xab9423a7; 0xfc93a039;
    0x655b59c3; 0x8f0ccc92; 0xffeff47d; 0x85845dd1;
    0x6fa87e4f; 0xfe2ce6e0; 0xa3014314; 0x4e0811a1;
    0xf7537e82; 0xbd3af235; 0x2ad7d2bb; 0xeb86d391 ].

(** Per-round left-rotation amounts. *)
Definition rot : list Z :=
  [ 7; 12; 17; 22; 7; 12; 17; 22; 7; 12; 17; 22; 7; 12; 17; 22;
    5;  9; 14; 20; 5;  9; 14; 20; 5;  9; 14; 20; 5;  9; 14; 20;
    4; 11; 16; 23; 4; 11; 16; 23; 4; 11; 16; 23; 4; 11; 16; 23;
    6; 10; 15; 21; 6; 10; 15; 21; 6; 10; 15; 21; 6; 10; 15; 21 ].

(** Little-endian value of a list of bytes, and back. *)
Fixpoint le_value (bs : list Z) : Z :=
  match bs with
  | [] => 0
  | b :: t => b + 256 * le_value t
  end.

Fixpoint le_bytes (n : nat) (v : Z) : list Z :=
  match n with
  | O => []
  | S n' => (v mod 256) :: le_bytes n' (v / 256)
  end.

(** Message padding: a [0x80] byte, zeros up to 56 modulo 64, then the
    bit length on 64 bits. *)
Definition pad (msg : list Z) : list Z :=
  let len := Z.of_nat (List.length msg) in
  msg ++ [0x80] ++ repeat 0 (Z.to_nat ((55 - len) mod 64))
      ++ le_bytes 8 ((8 * len) mod 2 ^ 64).

Fixpoint chunks (fuel : nat) (size : nat) (l : list Z) : list (list Z) :=
  match fuel, l with
  | O, _ => []
  | _, [] => []
  | S f, _ => firstn size l :: chunks f size (skipn size l)
  end.

Record state : Type := mkState { sa : Z; sb : Z; sc : Z; sd : Z }.

Definition init : state :=
  mkState 0x67452301 0xefcdab89 0x98badcfe 0x10325476.

(** One of the 64 operations on a block whose words are [M]. *)
Definition step (M : list Z) (st : state) (i : nat) : state :=
  let '(mkState a b c d) := st in
  let iz := Z.of_nat i in
  let '(f, g) :=
    if iz <? 16 then (Z.lor (Z.land b c) (Z.land (not32 b) d), iz)
    else if iz <? 32 then
      (Z.lor (Z.land d b) (Z.land (not32 d) c), (5 * iz + 1) mod 16)
    else if iz <? 48 then (Z.lxor (Z.lxor b c) d, (3 * iz + 5) mod 16)
    else (Z.lxor c (Z.lor b (not32 d)), (7 * iz) mod 16) in
  let f' := add32 (add32 (add32 f a) (nth i K 0)) (nth (Z.to_nat g) M 0) in
  mkState d (add32 b (rotl32 f' (nth i rot 0))) b c.

Definition process_block (st : state) (block : list Z) : state :=
  let M := map le_value (chunks 16 4 block) in
  let st' := fold_left (step M) (seq 0 64) st in
  mkState (add32 (sa st) (sa st')) (add32 (sb st) (sb st'))
          (add32 (sc st) (sc st')) (add32 (sd st) (sd st')).

(** [hashlib.md5(data).digest()] as a list of 16 byte values. *)
Definition digest (msg : list Z) : list Z :=
  let padded := pad msg in
  let st := fold_left process_block
              (chunks (List.length padded) 64 padded) init in
  le_bytes 4 (sa st) ++ le_bytes 4 (sb st)
    ++ le_bytes 4 (sc st) ++ le_bytes 4 (sd st).

Definition hex_digit (v : Z) : ascii :=
  nth (Z.to_nat v)
      (list_ascii_of_string "0123456789abcdef") "0"%char.

(** [hashlib.md5(data).hexdigest()] *)
Definition hexdigest (msg : list Z) : string :=
  string_of_list_ascii
    (flat_map (fun b => [hex_digit (b / 16); hex_digit (b mod 16)])
              (digest msg)).

End MD5.


(* ================================================================== *)
(** * class SimpleBloomFilter *)
(* ================================================================== *)

Module Bloom.

Import Py.

(** An argument of [add] and [contains]: [Union[str, int]]; a [bool]
    is an [int] for [isinstance], with a text of its own. *)
Inductive item : Type :=
| Str (s : string)
| Int (i : Z)
| Bool (b : bool).

(** The attributes of an instance. *)
Record filter : Type := mkFilter {
  n : Z;
  p : R;
  m : Z;
  k : Z;
  bit_array : list bool;
  num_elements : Z
}.

(** ** Methods as computations on the instance

    A computation returns its outcome and the instance as it left it; an
    exception keeps whatever was written before it was raised. *)
Definition M (A : Type) : Type := filter -> result A * filter.

Definition ret {A} (a : A) : M A := fun self => (Ok a, self).

Definition bind {A B} (c : M A) (f : A -> M B) : M B :=
  fun self =>
    match c self with
    | (Ok a, self') => f a self'
    | (Raise e, self') => (Raise e, self')
    end.

Definition lift {A} (r : result A) : M A := fun self => (r, self).

(** Reading an attribute. *)
Definition attr {A} (field : filter -> A) : M A :=
  fun self => (Ok (field self), self).

(** Assignments to the attributes. *)
Definition set_n (v : Z) : M unit :=
  fun s => (Ok tt, mkFilter v (p s) (m s) (k s) (bit_array s) (num_elements s)).
Definition set_p (v : R) : M unit :=
  fun s => (Ok tt, mkFilter (n s) v (m s) (k s) (bit_array s) (num_elements s)).
Definition set_m (v : Z) : M unit :=
  fun s => (Ok tt, mkFilter (n s) (p s) v (k s) (bit_array s) (num_elements s)).
Definition set_k (v : Z) : M unit :=
  fun s => (Ok tt, mkFilter (n s) (p s) (m s) v (bit_array s) (num_elements s)).
Definition set_bit_array (v : list bool) : M unit :=
  fun s => (Ok tt, mkFilter (n s) (p s) (m s) (k s) v (num_elements s)).
Definition set_num_elements (v : Z) : M unit :=
  fun s => (Ok tt, mkFilter (n s) (p s) (m s) (k s) (bit_array s) v).

Declare Scope py_scope.
Delimit Scope py_scope with py.
Notation "x <- c ;; f" := (bind c (fun x => f))
  (at level 61, c at next level, right associativity) : py_scope.
Notation "c ;; f" := (bind c (fun _ => f))
  (at level 61, right associativity) : py_scope.
Local Open Scope py_scope.

(** [for x in l: body(x)] *)
Fixpoint for_each {A} (l : list A) (body : A -> M unit) : M unit :=
  match l with
  | [] => ret tt
  | x :: rest => body x ;; for_each rest body
  end.

(** [_calculate_optimal_m]: [int(-self.n * math.log(self.p) / (math.log(2) ** 2))] *)
Definition _calculate_optimal_m : M Z :=
  self_n <- attr n ;;
  self_p <- attr p ;;
  log_p <- lift (math_log self_p) ;;
  log_2 <- lift (math_log 2) ;;
  sq <- lift (float_pow_int log_2 2) ;;
  q <- lift (float_div (- IZR self_n * log_p) sq) ;;
  ret (int_of_float q).

(** [_calculate_optimal_k]: [int((self.m / self.n) * math.log(2))] *)
Definition _calculate_optimal_k : M Z :=
  self_m <- attr m ;;
  self_n <- attr n ;;
  ratio <- lift (int_truediv self_m self_n) ;;
  log_2 <- lift (math_log 2) ;;
  ret (int_of_float (ratio * log_2)).

(** [__init__(self, capacity, false_positive_probability)] *)
Definition __init__ (capacity : Z) (false_positive_probability : R) : M unit :=
  set_n capacity ;;
  set_p false_positive_probability ;;
  optimal_m <- _calculate_optimal_m ;;
  set_m optimal_m ;;
  optimal_k <- _calculate_optimal_k ;;
  set_k optimal_k ;;
  self_m <- attr m ;;
  set_bit_array (list_repeat false self_m) ;;
  set_num_elements 0.

(** The instance before [__init__] has run: no attribute is read before
    it is assigned, so the initial contents are immaterial. *)
Definition blank : filter := mkFilter 0 0 0 0 [] 0.

(** [SimpleBloomFilter(capacity, false_positive_probability)]: the
    instance when [__init__] returns, otherwise the exception.  The
    arithmetic being that of the reals, the [OverflowError] of a capacity
    beyond the range of floats and the failure to allocate a huge bit
    array have no counterpart here: [Ok] means that the constructor
    returns provided the float arithmetic and the allocation succeed. *)
Definition new (capacity : Z) (false_positive_probability : R) : result filter :=
  match __init__ capacity false_positive_probability blank with
  | (Ok _, self) => Ok self
  | (Raise e, _) => Raise e
  end.

(** [_hash(self, item, seed)] *)
Definition _hash (it : item) (seed : Z) : M Z :=
  let item_str :=
    match it with
    | Int i => str_of_int i
    | Bool b => str_of_bool b
    | Str s => s
    end in
  let hash_input :=
    encode_utf8 (item_str ++ "_" ++ str_of_int seed) in
  let hash_value := int_of_hex (MD5.hexdigest hash_input) in
  self_m <- attr m ;;
  lift (int_mod hash_value self_m).

(** The body of the loop of [add]:
    [index = self._hash(item, i); self.bit_array[index] = True] *)
Definition add_round (it : item) (i : Z) : M unit :=
  index <- _hash it i ;;
  bits <- attr bit_array ;;
  bits' <- lift (setitem bits index true) ;;
  set_bit_array bits'.

(** [add(self, item)] *)
Definition add (it : item) : M unit :=
  self_k <- attr k ;;
  for_each (range self_k) (add_round it) ;;
  count <- attr num_elements ;;
  set_num_elements (count + 1).

(** The loop of [contains]: the first unset bit returns [False]. *)
Fixpoint contains_rounds (it : item) (rounds : list Z) : M bool :=
  match rounds with
  | [] => ret true
  | i :: rest =>
      index <- _hash it i ;;
      bits <- attr bit_array ;;
      bit <- lift (getitem false bits index) ;;
      if negb bit then ret false else contains_rounds it rest
  end.

(** [contains(self, item)] *)
Definition contains (it : item) : M bool :=
  self_k <- attr k ;;
  contains_rounds it (range self_k).

(** [__contains__(self, item)]: the [in] operator. *)
Definition __contains__ (it : item) : M bool := contains it.

(** [get_current_false_positive_probability(self)] *)
Definition get_current_false_positive_probability : M R :=
  count <- attr num_elements ;;
  if count =? 0 then ret 0%R
  else
    self_k <- attr k ;;
    self_m <- attr m ;;
    e <- lift (int_truediv (- self_k * count) self_m) ;;
    lift (float_pow_int (1 - math_exp e) self_k).

(** [get_fill_ratio(self)] *)
Definition get_fill_ratio : M R :=
  bits <- attr bit_array ;;
  self_m <- attr m ;;
  lift (int_truediv (sum_bools bits) self_m).

(** What [print_stats] writes, before the numbers are formatted. *)
Record report : Type := mkReport {
  r_n : Z;
  r_p : R;
  r_m : Z;
  r_k : Z;
  r_memory_bytes : R;
  r_memory_kb : R;
  r_elements : Z;
  r_fill_ratio : R;
  r_bits_set : Z;
  r_current_fp : R;
  r_load_factor : option R
}.

(** [print_stats(self)]: the output goes to the console, the instance is
    only read. *)
Definition print_stats : M report :=
  current_fp <- get_current_false_positive_probability ;;
  fill_ratio <- get_fill_ratio ;;
  self_n <- attr n ;;
  self_p <- attr p ;;
  self_m <- attr m ;;
  self_k <- attr k ;;
  bytes <- lift (int_truediv self_m 8) ;;
  kb <- lift (float_div bytes 1024) ;;
  count <- attr num_elements ;;
  bits <- attr bit_array ;;
  load <- (if 0 <? count
           then (l <- lift (int_truediv count self_n) ;; ret (Some l))
           else ret None) ;;
  ret (mkReport self_n self_p self_m self_k bytes kb count fill_ratio
                (sum_bools bits) current_fp load).

(** ** Sequences of calls *)

Inductive call : Type :=
| Add (it : item)
| Contains (it : item)
| InOperator (it : item)
| GetCurrentFalsePositiveProbability
| GetFillRatio
| PrintStats.

Inductive value : Type :=
| VNone
| VBool (b : bool)
| VFloat (x : R)
| VReport (r : report).

Definition exec (c : call) : M value :=
  match c with
  | Add it => add it ;; ret VNone
  | Contains it => b <- contains it ;; ret (VBool b)
  | InOperator it => b <- __contains__ it ;; ret (VBool b)
  | GetCurrentFalsePositiveProbability =>
      x <- get_current_false_positive_probability ;; ret (VFloat x)
  | GetFillRatio => x <- get_fill_ratio ;; ret (VFloat x)
  | PrintStats => r <- print_stats ;; ret (VReport r)
  end.

(** The instance after a sequence of calls; a caller that catches an
    exception goes on with the instance as the failed call left it. *)
Definition run (calls : list call) (self : filter) : filter :=
  fold_left (fun s c => snd (exec c s)) calls self.

End Bloom.

Import Py Bloom.

(* ================================================================== *)
(** * Vocabulary of the properties *)
(* ================================================================== *)

(** The quotient that [_calculate_optimal_m] truncates. *)
Definition raw_m (capacity : Z) (fpp : R) : R :=
  (- IZR capacity * ln fpp / (ln 2) ^ 2)%R.

(** The product that [_calculate_optimal_k] truncates. *)
Definition raw_k (bits capacity : Z) : R :=
  (IZR bits / IZR capacity * ln 2)%R.

(** The instance that [__init__] leaves when it returns. *)
Definition constructed (capacity : Z) (fpp : R) : filter :=
  let bits := int_of_float (raw_m capacity fpp) in
  mkFilter capacity fpp bits (int_of_float (raw_k bits capacity))
           (list_repeat false bits) 0.

Definition valid_config (capacity : Z) (fpp : R) : Prop :=
  1 <= capacity /\ (0 < fpp < 1)%R.

(** The integer that [_hash] reduces modulo [m]. *)
Definition digest_int (it : item) (seed : Z) : Z :=
  int_of_hex (MD5.hexdigest (encode_utf8
    ((match it with
      | Int i => str_of_int i
      | Bool b => str_of_bool b
      | Str s => s
      end)
       ++ "_" ++ str_of_int seed))).

Definition index_of (self : filter) (it : item) (seed : Z) : Z :=
  digest_int it seed mod m self.

(** Bit [j] of the array, [False] outside of it. *)
Definition bit (self : filter) (j : nat) : bool := nth j (bit_array self) false.

(** The bit array fits the derived parameters: it has [m] cells, and
    there is a cell to address whenever a hash round is run. *)
Definition wf (self : filter) : Prop :=
  List.length (bit_array self) = Z.to_nat (m self)
  /\ (0 < k self -> 0 < m self).

(** [bits'] has the cells of [bits], with every set bit still set. *)
Definition bits_le (bits bits' : list bool) : Prop :=
  List.length bits' = List.length bits
  /\ forall j, nth j bits false = true -> nth j bits' false = true.

(** [self'] has the configuration and the derived parameters of [self],
    and a bit array that extends it. *)
Definition extends (self self' : filter) : Prop :=
  n self' = n self /\ p self' = p self /\ m self' = m self
  /\ k self' = k self /\ bits_le (bit_array self) (bit_array self').

(** The instance of [examples/basic_demo.py], as the constructor
    leaves it for capacity=100, p=0.01. *)
Definition basic_demo_filter : filter :=
  mkFilter 100 (1 / 100) 958 6 (list_repeat false 958) 0.

(** The sizing formulas as the specification words them: [m] rounded up,
    [k] rounded down with a minimum of one. *)
Definition claimed_m (capacity : Z) (fpp : R) : Z :=
  Zceil (raw_m capacity fpp).

Definition claimed_k (bits capacity : Z) : Z :=
  Z.max 1 (Zfloor (raw_k bits capacity)).

(** A bound on the relative error of the float product
    [(self.m / self.n) * math.log(2)] with respect to the real product:
    the quotient, the logarithm and the product are each rounded once,
    by at most [2^-53]. *)
Definition rounding_tolerance : R := (/ 2 ^ 50)%R.

(* ================================================================== *)
(** * Certified bounds on [exp] and [ln]

    [exp t >= (1 + t / 2^j) ^ (2^j)] for [t >= -2^j]; the power is
    bounded from below by [j] squarings in fixed point, each rounded
    down.  A bound is then a comparison of integers. *)
(* ================================================================== *)

Module Bounds.

(** Fixed-point numbers: [z] stands for [z / scale]. *)
Definition scale : Z := 10 ^ 18.

(** The square, rounded down. *)
Definition sq_down (z : Z) : Z := (z * z) / scale.

(** [j] squarings: a lower bound of the power [2^j]. *)
Fixpoint sq_iter (j : nat) (z : Z) : Z :=
  match j with
  | O => z
  | S j' => sq_iter j' (sq_down z)
  end.

(** [exp_gt_check a b j c d = true] certifies [c / d < exp (a / b)]. *)
Definition exp_gt_check (a b : Z) (j : nat) (c d : Z) : bool :=
  let N := b * 2 ^ Z.of_nat j in
  let z0 := (scale * (N + a)) / N in
  (0 <? b) && (0 <? d) && (0 <=? N + a)
  && (c * scale <? d * sq_iter j z0).

End Bounds.

Import Bounds.

(* ================================================================== *)
(** * Vocabulary of the further properties *)
(* ================================================================== *)

(** The cells that [add] writes for an item: one per hash round. *)
Definition indices (self : filter) (it : item) : list nat :=
  map (fun i => Z.to_nat (index_of self it i)) (range (k self)).

(** The bit array with the listed cells set. *)
Definition set_bits (bits : list bool) (cells : list nat) : list bool :=
  fold_left (fun b j => set_nth b j true) cells bits.

(** Whether every cell of an item is set. *)
Definition all_set (self : filter) (it : item) : bool :=
  forallb (bit self) (indices self it).

(** The object after a successful [add]. *)
Definition added (self : filter) (it : item) : filter :=
  mkFilter (n self) (p self) (m self) (k self)
           (set_bits (bit_array self) (indices self it))
           (num_elements self + 1).

(** The number of [add] calls in a sequence of calls. *)
Definition count_adds (calls : list call) : Z :=
  Z.of_nat (List.length
    (List.filter (fun c => match c with Add _ => true | _ => false end) calls)).

(** A state that some sequence of calls reaches from a filter built with
    a valid configuration. *)
Definition reachable (self : filter) : Prop :=
  exists capacity fpp self0 calls,
    valid_config capacity fpp
    /\ new capacity fpp = Ok self0
    /\ self = run calls self0.

(** The value of [get_current_false_positive_probability] for [count]
    counted elements: [(1 - e^(-k * count / m)) ** k], [0.0] for none. *)
Definition estimate (bits rounds count : Z) : R :=
  if count =? 0 then 0%R
  else powerRZ (1 - exp (IZR (- rounds * count) / IZR bits)) rounds.

(** [str(item)]: the text of an item. *)
Definition item_text (it : item) : string :=
  match it with
  | Int i => str_of_int i
  | Bool b => str_of_bool b
  | Str s => s
  end.

(** The bytes that [_hash] digests: [f"{item_str}_{seed}".encode('utf-8')]. *)
Definition hash_input (it : item) (seed : Z) : list Z :=
  encode_utf8 (item_text it ++ "_" ++ str_of_int seed).

(** The characters of a string avoid the underscore. *)
Fixpoint no_underscore (s : string) : bool :=
  match s with
  | EmptyString => true
  | String c rest => negb (Ascii.eqb c "_") && no_underscore rest
  end.

(* ================================================================== *)
(** * hashlib.md5: test vectors (RFC 1321, section A.5) *)
(* ================================================================== *)

Example md5_empty :
  MD5.hexdigest (Py.encode_utf8 "") = "d41d8cd98f00b204e9800998ecf8427e"%string.
Proof. vm_compute. reflexivity. Qed.

Example md5_abc :
  MD5.hexdigest (Py.encode_utf8 "abc") = "900150983cd24fb0d6963f7d28e17f72"%string.
Proof. vm_compute. reflexivity. Qed.

Example md5_message_digest :
  MD5.hexdigest (Py.encode_utf8 "message digest")
  = "f96b697d7cb7938d525a2f31aaf161d0"%string.
Proof. vm_compute. reflexivity. Qed.

Example md5_two_blocks :
  MD5.hexdigest (Py.encode_utf8
    "12345678901234567890123456789012345678901234567890123456789012345678901234567890")
  = "57edf4a22be3c955ac49da2e2107b67a"%string.
Proof. vm_compute. reflexivity. Qed.

Example md5_padding_boundary :
  MD5.hexdigest (Py.encode_utf8
    "aaaaaaaaaaaaaaaaaaaaaaaaaaaaaaaaaaaaaaaaaaaaaaaaaaaaaaaa")
  = "3b0c8ac703f828b04c6c197006d17218"%string.
Proof. vm_compute. reflexivity. Qed.

(* ================================================================== *)
(** * The model on the items of [examples/basic_demo.py] *)
(* ================================================================== *)

Example hash_apple :
  map (fun i => fst (_hash (Str "apple") i basic_demo_filter)) (range 6)
  = [Ok 202; Ok 610; Ok 458; Ok 517; Ok 120; Ok 379].
Proof. vm_compute. reflexivity. Qed.

Example hash_int_42 :
  map (fun i => fst (_hash (Int 42) i basic_demo_filter)) (range 6)
  = [Ok 95; Ok 937; Ok 537; Ok 44; Ok 273; Ok 110].
Proof. vm_compute. reflexivity. Qed.

Example basic_demo :
  let self :=
    run [Add (Str "apple"); Add (Str "banana"); Add (Str "orange")]
        basic_demo_filter in
  (num_elements self, sum_bools (bit_array self),
   map (fun it => fst (contains (Str it) self))
       ["apple"; "banana"; "orange"; "grape"; "strawberry"; "kiwi"]%string)
  = (3, 17, [Ok true; Ok true; Ok true; Ok false; Ok false; Ok false]).
Proof. vm_compute. reflexivity. Qed.

(** A failing round keeps the bits that earlier rounds have set: with a
    bit array shorter than [m] the second round of "apple" (index 610)
    raises after the first (index 202) has written. *)
Example add_is_not_atomic :
  let self := mkFilter 100 (1 / 100) 958 6 (list_repeat false 300) 0 in
  (fst (add (Str "apple") self),
   sum_bools (bit_array (snd (add (Str "apple") self))),
   num_elements (snd (add (Str "apple") self)))
  = (Raise IndexError, 1, 0).
Proof. vm_compute. reflexivity. Qed.

(* ================================================================== *)
(** * Bounds on [exp] and [ln] *)
(* ================================================================== *)

Section ExpBounds.

Local Open Scope R_scope.

Lemma IZR_div_le (a b : Z) : (0 < b)%Z -> IZR (a / b) <= IZR a / IZR b.
Proof.
  intros Hb.
  assert (Hb' : 0 < IZR b) by (apply IZR_lt; exact Hb).
  apply Rmult_le_reg_r with (IZR b); [exact Hb'|].
  unfold Rdiv. rewrite Rmult_assoc, Rinv_l, Rmult_1_r by lra.
  rewrite <- mult_IZR. apply IZR_le.
  rewrite Z.mul_comm. apply Z.mul_div_le. exact Hb.
Qed.

Lemma scale_pos : 0 < IZR scale.
Proof. apply IZR_lt. reflexivity. Qed.

Lemma sq_down_nonneg z : (0 <= z)%Z -> (0 <= sq_down z)%Z.
Proof.
  intros Hz. unfold sq_down. apply Z.div_pos; [nia | reflexivity].
Qed.

Lemma sq_down_sound z r :
  (0 <= z)%Z -> IZR z / IZR scale <= r ->
  IZR (sq_down z) / IZR scale <= r * r.
Proof.
  intros Hz Hr.
  pose proof scale_pos as Hs.
  assert (H0 : 0 <= IZR z / IZR scale).
  { apply Rmult_le_pos; [apply IZR_le; exact Hz | left; apply Rinv_0_lt_compat; exact Hs]. }
  assert (H1 : IZR (sq_down z) <= IZR (z * z) / IZR scale).
  { unfold sq_down. apply IZR_div_le. reflexivity. }
  assert (H2 : IZR (z * z) / IZR scale / IZR scale
               = (IZR z / IZR scale) * (IZR z / IZR scale)).
  { rewrite mult_IZR. field. lra. }
  apply Rle_trans with (IZR (z * z) / IZR scale / IZR scale).
  - unfold Rdiv at 1 3. apply Rmult_le_compat_r; [left; apply Rinv_0_lt_compat; exact Hs | exact H1].
  - rewrite H2. apply Rmult_le_compat; assumption.
Qed.

Lemma pow_twice r j : r ^ (2 ^ S j) = (r * r) ^ (2 ^ j).
Proof.
  rewrite Nat.pow_succ_r', pow_mult.
  replace (r ^ 2) with (r * r) by ring. reflexivity.
Qed.

Lemma sq_iter_sound j : forall z r,
  (0 <= z)%Z -> IZR z / IZR scale <= r ->
  IZR (sq_iter j z) / IZR scale <= r ^ (2 ^ j).
Proof.
  induction j as [|j IH]; intros z r Hz Hr.
  - change (2 ^ 0)%nat with 1%nat. rewrite pow_1. exact Hr.
  - rewrite pow_twice. cbn [sq_iter]. apply IH.
    + apply sq_down_nonneg; exact Hz.
    + apply sq_down_sound; assumption.
Qed.

Lemma exp_pow_nat x (k : nat) : exp (INR k * x) = exp x ^ k.
Proof.
  induction k as [|k IH].
  - cbn. rewrite Rmult_0_l. apply exp_0.
  - rewrite S_INR, Rmult_plus_distr_r, Rmult_1_l, exp_plus, IH. cbn. ring.
Qed.

Lemma pow_le_exp y (k : nat) : -1 <= y -> (1 + y) ^ k <= exp (INR k * y).
Proof.
  intros Hy. rewrite exp_pow_nat.
  apply pow_incr. split; [lra | apply exp_ineq1_le].
Qed.

Lemma INR_pow2 j : INR (2 ^ j) = IZR (2 ^ Z.of_nat j).
Proof.
  rewrite INR_IZR_INZ. f_equal.
  rewrite Nat2Z.inj_pow. reflexivity.
Qed.

Lemma exp_gt_check_sound a b j c d :
  exp_gt_check a b j c d = true ->
  IZR c / IZR d < exp (IZR a / IZR b).
Proof.
  unfold exp_gt_check.
  set (N := (b * 2 ^ Z.of_nat j)%Z).
  set (z0 := ((scale * (N + a)) / N)%Z).
  intros H.
  apply andb_prop in H as [H Hc]. apply andb_prop in H as [H Hn].
  apply andb_prop in H as [Hb Hd].
  apply Z.ltb_lt in Hb, Hd, Hc. apply Z.leb_le in Hn.
  assert (Hpow : (0 < 2 ^ Z.of_nat j)%Z) by (apply Z.pow_pos_nonneg; lia).
  assert (HN : (0 < N)%Z) by (unfold N; nia).
  assert (HNr : 0 < IZR N) by (apply IZR_lt; exact HN).
  assert (Hbr : 0 < IZR b) by (apply IZR_lt; exact Hb).
  assert (Hdr : 0 < IZR d) by (apply IZR_lt; exact Hd).
  assert (Hpr : 0 < IZR (2 ^ Z.of_nat j)) by (apply IZR_lt; exact Hpow).
  pose proof scale_pos as Hs.
  set (t := IZR a / IZR b).
  set (y := t / INR (2 ^ j)).
  assert (Hy : 1 + y = IZR (N + a) / IZR N).
  { unfold y, t, N. rewrite INR_pow2, plus_IZR, mult_IZR. field. lra. }
  assert (Hy1 : -1 <= y).
  { assert (0 <= 1 + y); [|lra]. rewrite Hy.
    apply Rmult_le_pos; [apply IZR_le; exact Hn | left; apply Rinv_0_lt_compat; exact HNr]. }
  assert (Hz0 : (0 <= z0)%Z).
  { unfold z0. apply Z.div_pos; [|exact HN]. apply Z.mul_nonneg_nonneg; [discriminate | exact Hn]. }
  assert (Hz0r : IZR z0 / IZR scale <= 1 + y).
  { rewrite Hy. unfold z0.
    apply Rmult_le_reg_r with (IZR scale); [exact Hs|].
    unfold Rdiv at 1. rewrite Rmult_assoc, Rinv_l, Rmult_1_r by lra.
    eapply Rle_trans; [apply IZR_div_le; exact HN|].
    rewrite mult_IZR. right. field. lra. }
  pose proof (sq_iter_sound j z0 (1 + y) Hz0 Hz0r) as Hs1.
  pose proof (pow_le_exp y (2 ^ j) Hy1) as Hs2.
  replace (INR (2 ^ j) * y) with t in Hs2.
  2:{ unfold y. field. rewrite INR_pow2. lra. }
  apply Rlt_le_trans with (IZR (sq_iter j z0) / IZR scale); [|lra].
  apply Rmult_lt_reg_r with (IZR d * IZR scale); [nra|].
  replace (IZR c / IZR d * (IZR d * IZR scale)) with (IZR c * IZR scale) by (field; lra).
  replace (IZR (sq_iter j z0) / IZR scale * (IZR d * IZR scale))
    with (IZR d * IZR (sq_iter j z0)) by (field; lra).
  rewrite <- !mult_IZR. apply IZR_lt. exact Hc.
Qed.

(** [c/d < exp (a/b)] gives [ln (c/d) < a/b]; with [a < 0] it bounds
    the logarithm of [d/c] from below. *)
Lemma ln_lt_of_check x a b j c d :
  0 < x -> x <= IZR c / IZR d ->
  exp_gt_check a b j c d = true -> ln x < IZR a / IZR b.
Proof.
  intros Hx Hle H. apply exp_gt_check_sound in H.
  rewrite <- (ln_exp (IZR a / IZR b)).
  apply ln_increasing; lra.
Qed.

Lemma ln_gt_of_check x a b j c d :
  0 < x -> / x <= IZR c / IZR d ->
  exp_gt_check (- a) b j c d = true -> IZR a / IZR b < ln x.
Proof.
  intros Hx Hle H. apply exp_gt_check_sound in H.
  rewrite opp_IZR in H.
  replace (- IZR a / IZR b) with (- (IZR a / IZR b)) in H by (unfold Rdiv; ring).
  assert (Hlt : / x < exp (- (IZR a / IZR b))) by lra.
  assert (Hix : 0 < / x) by (apply Rinv_0_lt_compat; exact Hx).
  apply ln_increasing in Hlt; [|exact Hix].
  rewrite ln_exp, ln_Rinv in Hlt by exact Hx. lra.
Qed.

Lemma ln2_lower : 6931 / 10000 < ln 2.
Proof.
  apply (ln_gt_of_check 2 6931 10000 20 1 2); [lra | lra | vm_compute; reflexivity].
Qed.

Lemma ln2_upper : ln 2 < 6932 / 10000.
Proof.
  apply (ln_lt_of_check 2 6932 10000 20 2 1); [lra | lra | vm_compute; reflexivity].
Qed.

End ExpBounds.

(* ================================================================== *)
(** * The run-time fragments *)
(* ================================================================== *)

Section PyFacts.

Local Open Scope R_scope.

Lemma math_log_pos x : 0 < x -> math_log x = Ok (ln x).
Proof. intros H. unfold math_log. destruct (Rlt_dec 0 x); [reflexivity | contradiction]. Qed.

Lemma math_log_nonpos x : x <= 0 -> math_log x = Raise ValueError.
Proof. intros H. unfold math_log. destruct (Rlt_dec 0 x); [lra | reflexivity]. Qed.

Lemma ln2_pos : 0 < ln 2.
Proof. rewrite <- ln_1. apply ln_increasing; lra. Qed.

Lemma float_div_nonzero x y : y <> 0 -> float_div x y = Ok (x / y).
Proof. intros H. unfold float_div. destruct (Req_dec_T y 0); [contradiction | reflexivity]. Qed.

Lemma float_pow_int_nonneg x j : (0 <= j)%Z -> float_pow_int x j = Ok (powerRZ x j).
Proof.
  intros H. unfold float_pow_int.
  destruct (j <? 0)%Z eqn:E; [apply Z.ltb_lt in E; lia | reflexivity].
Qed.

Lemma int_truediv_nonzero a b : b <> 0%Z -> int_truediv a b = Ok (IZR a / IZR b).
Proof.
  intros H. unfold int_truediv.
  destruct (b =? 0)%Z eqn:E; [apply Z.eqb_eq in E; contradiction | reflexivity].
Qed.

Lemma int_truediv_zero a : int_truediv a 0 = Raise ZeroDivisionError.
Proof. reflexivity. Qed.

Lemma int_of_float_floor x : 0 <= x -> int_of_float x = Zfloor x.
Proof. intros H. unfold int_of_float. destruct (Rle_dec 0 x); [reflexivity | contradiction]. Qed.

Lemma int_of_float_eq x z :
  (0 <= z)%Z -> IZR z <= x < IZR z + 1 -> int_of_float x = z.
Proof.
  intros Hz Hx. rewrite int_of_float_floor.
  - apply Zfloor_eq. exact Hx.
  - apply IZR_le in Hz. lra.
Qed.

Lemma int_of_float_nonneg x : 0 <= x -> (0 <= int_of_float x)%Z.
Proof.
  intros H. rewrite int_of_float_floor by exact H.
  apply Zfloor_lub. exact H.
Qed.

Lemma int_of_float_nonpos x : x <= 0 -> (int_of_float x <= 0)%Z.
Proof.
  intros H. unfold int_of_float. destruct (Rle_dec 0 x) as [H0|H0].
  - replace x with (IZR 0) by lra. rewrite ZfloorZ. lia.
  - unfold Zceil. assert (0 <= Zfloor (- x))%Z; [|lia].
    apply Zfloor_lub. lra.
Qed.

Lemma int_of_float_lt_1 x : 0 <= x < 1 -> int_of_float x = 0%Z.
Proof. intros H. apply int_of_float_eq; [lia | lra]. Qed.

End PyFacts.

Section Construction.

Local Open Scope R_scope.

Lemma calculate_optimal_m_ok self :
  0 < p self ->
  _calculate_optimal_m self
  = (Ok (int_of_float (raw_m (n self) (p self))), self).
Proof.
  intros Hp. unfold _calculate_optimal_m, bind, attr, lift, ret.
  rewrite (math_log_pos _ Hp), (math_log_pos 2) by lra.
  rewrite float_pow_int_nonneg by lia.
  assert (Hsq : powerRZ (ln 2) 2 = ln 2 ^ 2) by reflexivity.
  rewrite Hsq, float_div_nonzero; [reflexivity|].
  pose proof ln2_pos. nra.
Qed.

Lemma calculate_optimal_m_domain_error self :
  p self <= 0 -> _calculate_optimal_m self = (Raise ValueError, self).
Proof.
  intros Hp. unfold _calculate_optimal_m, bind, attr, lift, ret.
  rewrite (math_log_nonpos _ Hp). reflexivity.
Qed.

Lemma calculate_optimal_k_ok self :
  n self <> 0%Z ->
  _calculate_optimal_k self
  = (Ok (int_of_float (raw_k (m self) (n self))), self).
Proof.
  intros Hn. unfold _calculate_optimal_k, bind, attr, lift, ret.
  rewrite (int_truediv_nonzero _ _ Hn), (math_log_pos 2) by lra.
  reflexivity.
Qed.

Lemma calculate_optimal_k_zero_division self :
  n self = 0%Z -> _calculate_optimal_k self = (Raise ZeroDivisionError, self).
Proof.
  intros Hn. unfold _calculate_optimal_k, bind, attr, lift, ret.
  rewrite Hn, int_truediv_zero. reflexivity.
Qed.

Lemma init_ok capacity fpp self :
  0 < fpp -> capacity <> 0%Z ->
  __init__ capacity fpp self = (Ok tt, constructed capacity fpp).
Proof.
  intros Hp Hn. unfold __init__, bind at 1 2. unfold set_n, set_p.
  unfold bind at 1. rewrite calculate_optimal_m_ok by exact Hp.
  unfold bind at 1. unfold set_m at 1. cbn [n p m k bit_array num_elements].
  unfold bind at 1. rewrite calculate_optimal_k_ok by exact Hn.
  reflexivity.
Qed.

Lemma new_ok capacity fpp :
  0 < fpp -> capacity <> 0%Z ->
  new capacity fpp = Ok (constructed capacity fpp).
Proof.
  intros Hp Hn. unfold new. rewrite init_ok by assumption. reflexivity.
Qed.

Lemma new_domain_error capacity fpp :
  fpp <= 0 -> new capacity fpp = Raise ValueError.
Proof.
  intros Hp. unfold new, __init__, bind at 1 2. unfold set_n, set_p.
  unfold bind at 1. rewrite calculate_optimal_m_domain_error by exact Hp.
  reflexivity.
Qed.

Lemma new_zero_capacity fpp :
  0 < fpp -> new 0 fpp = Raise ZeroDivisionError.
Proof.
  intros Hp. unfold new, __init__, bind at 1 2. unfold set_n, set_p.
  unfold bind at 1. rewrite calculate_optimal_m_ok by exact Hp.
  unfold bind at 1. unfold set_m at 1. cbn [n p m k bit_array num_elements].
  unfold bind at 1. rewrite calculate_optimal_k_zero_division by reflexivity.
  reflexivity.
Qed.

Lemma raw_m_nonneg capacity fpp :
  valid_config capacity fpp -> 0 <= raw_m capacity fpp.
Proof.
  intros [Hn [Hp0 Hp1]]. unfold raw_m.
  assert (Hl : ln fpp < 0) by (rewrite <- ln_1; apply ln_increasing; lra).
  assert (Hc : 1 <= IZR capacity) by (apply IZR_le; exact Hn).
  pose proof ln2_pos as H2.
  apply Rmult_le_pos; [nra|].
  left. apply Rinv_0_lt_compat. nra.
Qed.

Lemma raw_k_sign bits capacity :
  (1 <= capacity)%Z ->
  ((0 <= bits)%Z -> 0 <= raw_k bits capacity)
  /\ ((bits <= 0)%Z -> raw_k bits capacity <= 0).
Proof.
  intros Hn. unfold raw_k.
  assert (Hc : 1 <= IZR capacity) by (apply IZR_le; exact Hn).
  assert (Hi : 0 < / IZR capacity) by (apply Rinv_0_lt_compat; lra).
  pose proof ln2_pos as H2.
  split; intros Hb; apply IZR_le in Hb; unfold Rdiv.
  - apply Rmult_le_pos; [apply Rmult_le_pos|]; lra.
  - assert (0 <= (- IZR bits) * / IZR capacity * ln 2); [|nra].
    apply Rmult_le_pos; [apply Rmult_le_pos|]; lra.
Qed.

End Construction.

(* ================================================================== *)
(** * Construction at given configurations *)
(* ================================================================== *)

Section Examples.

Local Open Scope R_scope.

Lemma int_of_float_div x d z :
  0 < d -> (0 <= z)%Z ->
  IZR z * d <= x < (IZR z + 1) * d ->
  int_of_float (x / d) = z.
Proof.
  intros Hd Hz [Hlo Hhi]. apply int_of_float_eq; [exact Hz|].
  assert (Hi : 0 < / d) by (apply Rinv_0_lt_compat; exact Hd).
  split.
  - apply Rmult_le_reg_r with d; [exact Hd|].
    unfold Rdiv. rewrite Rmult_assoc, Rinv_l, Rmult_1_r by lra. exact Hlo.
  - apply Rmult_lt_reg_r with d; [exact Hd|].
    unfold Rdiv. rewrite Rmult_assoc, Rinv_l, Rmult_1_r by lra. exact Hhi.
Qed.

Lemma ln2_sq_bounds : 4803 / 10000 < ln 2 ^ 2 < 4806 / 10000.
Proof. pose proof ln2_lower. pose proof ln2_upper. nra. Qed.

Lemma ln_half : ln (1 / 2) = - ln 2.
Proof. replace (1 / 2) with (/ 2) by lra. apply ln_Rinv. lra. Qed.

Lemma ln_hundredth_bounds : 46035 / 10000 < - ln (1 / 100) < 46069 / 10000.
Proof.
  replace (1 / 100) with (/ 100) by lra.
  rewrite ln_Rinv, Ropp_involutive by lra. split.
  - apply (ln_gt_of_check 100 46035 10000 20 1 100); [lra | lra | vm_compute; reflexivity].
  - apply (ln_lt_of_check 100 46069 10000 20 100 1); [lra | lra | vm_compute; reflexivity].
Qed.

Lemma ln_three_tenths_bounds : 12014 / 10000 < - ln (3 / 10) < 12490 / 10000.
Proof.
  split.
  - pose proof (ln_lt_of_check (3 / 10) (-12014) 10000 20 3 10) as H.
    assert (H' : ln (3 / 10) < IZR (-12014) / 10000).
    { apply H; [lra | lra | vm_compute; reflexivity]. }
    lra.
  - pose proof (ln_gt_of_check (3 / 10) (-12490) 10000 20 10 3) as H.
    assert (H' : IZR (-12490) / 10000 < ln (3 / 10)).
    { apply H; [lra | lra | vm_compute; reflexivity]. }
    lra.
Qed.

Lemma ln_nine_tenths_bounds : 0 < - ln (9 / 10) < 11 / 100.
Proof.
  split.
  - assert (ln (9 / 10) < 0); [|lra].
    rewrite <- ln_1. apply ln_increasing; lra.
  - pose proof (ln_gt_of_check (9 / 10) (-11) 100 20 10 9) as H.
    assert (H' : IZR (-11) / 100 < ln (9 / 10)).
    { apply H; [lra | lra | vm_compute; reflexivity]. }
    lra.
Qed.

(** capacity=1, p=0.5: one bit, no hash round. *)
Lemma constructed_1_half :
  constructed 1 (1 / 2) = mkFilter 1 (1 / 2) 1 0 [false] 0.
Proof.
  pose proof ln2_lower as Hl. pose proof ln2_upper as Hu.
  pose proof ln2_sq_bounds as [Hsl Hsu].
  assert (Hm : int_of_float (raw_m 1 (1 / 2)) = 1%Z).
  { unfold raw_m. apply int_of_float_div; [lra | lia |].
    rewrite ln_half. lra. }
  assert (Hk : int_of_float (raw_k 1 1) = 0%Z).
  { unfold raw_k. apply int_of_float_lt_1. lra. }
  unfold constructed. rewrite Hm, Hk. reflexivity.
Qed.

(** capacity=1, p=0.9: the bit array is empty. *)
Lemma constructed_1_nine_tenths :
  constructed 1 (9 / 10) = mkFilter 1 (9 / 10) 0 0 [] 0.
Proof.
  pose proof ln2_sq_bounds as [Hsl Hsu].
  pose proof ln_nine_tenths_bounds as [Hl Hu].
  assert (Hm : int_of_float (raw_m 1 (9 / 10)) = 0%Z).
  { unfold raw_m. apply int_of_float_div; [lra | lia | lra]. }
  assert (Hk : int_of_float (raw_k 0 1) = 0%Z).
  { unfold raw_k. apply int_of_float_lt_1. lra. }
  unfold constructed. rewrite Hm, Hk. reflexivity.
Qed.

(** capacity=1, p=1: accepted, with an empty bit array. *)
Lemma constructed_1_1 :
  constructed 1 1 = mkFilter 1 1 0 0 [] 0.
Proof.
  assert (Hm : int_of_float (raw_m 1 1) = 0%Z).
  { unfold raw_m. rewrite ln_1. apply int_of_float_lt_1. lra. }
  assert (Hk : int_of_float (raw_k 0 1) = 0%Z).
  { unfold raw_k. apply int_of_float_lt_1. lra. }
  unfold constructed. rewrite Hm, Hk. reflexivity.
Qed.

Lemma derived_100_hundredth :
  int_of_float (raw_m 100 (1 / 100)) = 958%Z
  /\ int_of_float (raw_k 958 100) = 6%Z.
Proof.
  pose proof ln2_lower as Hl. pose proof ln2_upper as Hu.
  pose proof ln_hundredth_bounds as [Hhl Hhu].
  split.
  - unfold raw_m. apply int_of_float_div; [nra | lia | nra].
  - unfold raw_k. apply int_of_float_eq; [lia | lra].
Qed.

Lemma derived_10_three_tenths :
  int_of_float (raw_m 10 (3 / 10)) = 25%Z
  /\ int_of_float (raw_k 25 10) = 1%Z.
Proof.
  pose proof ln2_lower as Hl. pose proof ln2_upper as Hu.
  pose proof ln_three_tenths_bounds as [Hhl Hhu].
  split.
  - unfold raw_m. apply int_of_float_div; [nra | lia | nra].
  - unfold raw_k. apply int_of_float_eq; [lia | lra].
Qed.

End Examples.

(* ================================================================== *)
(** * Lists and the extension order *)
(* ================================================================== *)

Section Lists.

Context {A : Type}.

Lemma set_nth_length (l : list A) j v : List.length (set_nth l j v) = List.length l.
Proof.
  revert j. induction l as [|h t IH]; intros [|j]; cbn; try reflexivity.
  now rewrite IH.
Qed.

Lemma nth_set_nth_same (l : list A) j v d :
  (j < List.length l)%nat -> nth j (set_nth l j v) d = v.
Proof.
  revert j. induction l as [|h t IH]; intros [|j] H; cbn in *; try lia.
  - reflexivity.
  - apply IH. lia.
Qed.

Lemma nth_set_nth_other (l : list A) j j' v d :
  j <> j' -> nth j' (set_nth l j v) d = nth j' l d.
Proof.
  revert j j'. induction l as [|h t IH]; intros [|j] [|j'] H; cbn; try reflexivity.
  - contradiction.
  - apply IH. congruence.
Qed.

Lemma norm_index_in_range (l : list A) i :
  0 <= i < Z.of_nat (List.length l) -> norm_index l i = Ok (Z.to_nat i).
Proof.
  intros [H0 H1]. unfold norm_index.
  apply Z.leb_le in H0. apply Z.ltb_lt in H1. now rewrite H0, H1.
Qed.

Lemma setitem_in_range (l : list A) i v :
  0 <= i < Z.of_nat (List.length l) ->
  setitem l i v = Ok (set_nth l (Z.to_nat i) v).
Proof. intros H. unfold setitem. now rewrite norm_index_in_range. Qed.

Lemma getitem_in_range d (l : list A) i :
  0 <= i < Z.of_nat (List.length l) ->
  getitem d l i = Ok (nth (Z.to_nat i) l d).
Proof. intros H. unfold getitem. now rewrite norm_index_in_range. Qed.

End Lists.

Section Order.

Lemma bits_le_refl bits : bits_le bits bits.
Proof. split; [reflexivity | auto]. Qed.

Lemma bits_le_trans b1 b2 b3 : bits_le b1 b2 -> bits_le b2 b3 -> bits_le b1 b3.
Proof. intros [L1 H1] [L2 H2]. split; [congruence | auto]. Qed.

Lemma bits_le_set_nth bits j : bits_le bits (set_nth bits j true).
Proof.
  split; [apply set_nth_length|].
  intros j' H. destruct (Nat.eq_dec j j') as [->|Hne].
  - apply nth_set_nth_same.
    destruct (Nat.lt_ge_cases j' (List.length bits)) as [Hlt|Hge]; [exact Hlt|].
    rewrite nth_overflow in H by exact Hge. discriminate.
  - now rewrite nth_set_nth_other.
Qed.

Lemma bits_le_setitem bits bits' i :
  setitem bits i true = Ok bits' -> bits_le bits bits'.
Proof.
  unfold setitem. destruct (norm_index bits i); cbn; intros H; inversion H.
  apply bits_le_set_nth.
Qed.

Lemma extends_refl self : extends self self.
Proof. repeat split; auto using bits_le_refl. Qed.

Lemma extends_trans s1 s2 s3 : extends s1 s2 -> extends s2 s3 -> extends s1 s3.
Proof.
  intros (N1 & P1 & M1 & K1 & B1) (N2 & P2 & M2 & K2 & B2).
  unfold extends. repeat split; try congruence;
    apply (bits_le_trans _ _ _ B1 B2).
Qed.

Lemma extends_wf s s' : extends s s' -> wf s -> wf s'.
Proof.
  intros (_ & _ & Hm & Hk & [Hl _]) [W1 W2]. unfold wf.
  rewrite Hl, Hm, Hk. auto.
Qed.

Lemma extends_bit s s' j : extends s s' -> bit s j = true -> bit s' j = true.
Proof. intros (_ & _ & _ & _ & [_ H]). apply H. Qed.

Lemma extends_index_of s s' it i : extends s s' -> index_of s' it i = index_of s it i.
Proof. intros (_ & _ & Hm & _). unfold index_of. now rewrite Hm. Qed.

End Order.

Create HintDb bloom.
#[local] Hint Resolve bits_le_refl bits_le_set_nth extends_refl : bloom.

(** Case analysis on the outcome of a call [c] that, by [Hframe], returns
    the instance it received. *)
Ltac split_outcome c Hframe :=
  let H := fresh "Hst" in
  let st := fresh "st" in
  pose proof Hframe as H;
  destruct c as [[?|?] st]; cbn [snd] in H; subst st.

(* ================================================================== *)
(** * The methods *)
(* ================================================================== *)

Section Hash.

#[global] Opaque MD5.hexdigest int_of_hex encode_utf8 str_of_int.

Lemma hash_ok it i self :
  m self <> 0 -> _hash it i self = (Ok (index_of self it i), self).
Proof.
  intros Hm. unfold _hash, bind, attr, lift, int_mod.
  destruct (m self =? 0) eqn:E; [apply Z.eqb_eq in E; contradiction | reflexivity].
Qed.

Lemma hash_zero_division it i self :
  m self = 0 -> _hash it i self = (Raise ZeroDivisionError, self).
Proof.
  intros Hm. unfold _hash, bind, attr, lift, int_mod. now rewrite Hm.
Qed.

Lemma hash_frame it i self : snd (_hash it i self) = self.
Proof.
  unfold _hash, bind, attr, lift. reflexivity.
Qed.

Lemma index_of_range self it i :
  0 < m self -> 0 <= index_of self it i < m self.
Proof. intros Hm. unfold index_of. apply Z.mod_pos_bound. exact Hm. Qed.

End Hash.

Section Add.

Lemma add_unfold it self :
  add it self
  = bind (attr k) (fun self_k =>
      bind (for_each (range self_k) (add_round it)) (fun _ =>
        bind (attr num_elements) (fun count => set_num_elements (count + 1))))
      self.
Proof. reflexivity. Qed.

(** A round of [add] never touches the configuration, the derived
    parameters or the counter, and only sets bits; this holds whether or
    not the round raises. *)
Lemma add_round_extends it i self :
  extends self (snd (add_round it i self))
  /\ num_elements (snd (add_round it i self)) = num_elements self.
Proof.
  unfold add_round, bind.
  split_outcome (_hash it i self) (hash_frame it i self).
  2:{ cbn. auto with bloom. }
  unfold attr, lift.
  destruct (setitem (bit_array self) _ true) as [bits'|e'] eqn:Es.
  - cbn. split; [|reflexivity].
    repeat split; try reflexivity; apply (bits_le_setitem _ _ _ Es).
  - cbn. auto with bloom.
Qed.

Lemma add_rounds_extends it rounds : forall self,
  extends self (snd (for_each rounds (add_round it) self))
  /\ num_elements (snd (for_each rounds (add_round it) self)) = num_elements self.
Proof.
  induction rounds as [|i rest IH]; intros self.
  - cbn. auto with bloom.
  - cbn [for_each]. unfold bind.
    destruct (add_round_extends it i self) as [He Hn].
    destruct (add_round it i self) as [[[]|e] s1]; cbn in He, Hn.
    + destruct (IH s1) as [He' Hn']. split.
      * eapply extends_trans; eassumption.
      * congruence.
    + cbn. auto.
Qed.

(** Whatever the state, [add] keeps [n], [p], [m], [k] and the length of
    the bit array, and clears no bit. *)
Lemma add_extends it self : extends self (snd (add it self)).
Proof.
  rewrite add_unfold. unfold bind at 1. unfold attr at 1. unfold bind at 1.
  destruct (add_rounds_extends it (range (k self)) self) as [He Hn].
  destruct (for_each (range (k self)) (add_round it) self) as [[[]|e] s1];
    cbn in He, Hn |- *; [|exact He].
  destruct He as (N1 & P1 & M1 & K1 & B1). repeat split; cbn; auto; apply B1.
Qed.

(** On a well-formed state a round succeeds and sets its bit. *)
Lemma add_round_ok it i self :
  0 < m self -> List.length (bit_array self) = Z.to_nat (m self) ->
  add_round it i self
  = (Ok tt, mkFilter (n self) (p self) (m self) (k self)
                     (set_nth (bit_array self) (Z.to_nat (index_of self it i)) true)
                     (num_elements self)).
Proof.
  intros Hm Hlen. unfold add_round, bind.
  rewrite hash_ok by lia. unfold attr, lift.
  rewrite setitem_in_range; [reflexivity|].
  pose proof (index_of_range self it i Hm). lia.
Qed.

Lemma add_rounds_ok it rounds : forall self,
  (rounds <> [] -> 0 < m self /\ List.length (bit_array self) = Z.to_nat (m self)) ->
  exists self',
    for_each rounds (add_round it) self = (Ok tt, self')
    /\ extends self self'
    /\ num_elements self' = num_elements self
    /\ forall i, In i rounds ->
         bit self' (Z.to_nat (index_of self it i)) = true.
Proof.
  induction rounds as [|i rest IH]; intros self Hwf.
  - exists self. cbn. repeat split; auto with bloom; contradiction.
  - destruct Hwf as [Hm Hlen]; [discriminate|].
    cbn [for_each]. unfold bind. rewrite add_round_ok by assumption.
    set (s1 := mkFilter _ _ _ _ _ _).
    assert (He1 : extends self s1).
    { unfold extends, s1. cbn. auto 6 with bloom. }
    destruct (IH s1) as (s' & Hrun & He & Hn & Hbits).
    { intros _. cbn. rewrite set_nth_length. auto. }
    exists s'. split; [exact Hrun|]. split; [eapply extends_trans; eassumption|].
    split; [exact Hn|].
    intros j [<-|Hj].
    + apply (extends_bit s1 s' _ He). unfold bit, s1. cbn.
      apply nth_set_nth_same.
      pose proof (index_of_range self it i Hm). lia.
    + rewrite <- (extends_index_of self s1 it j He1). apply Hbits. exact Hj.
Qed.

Lemma range_nonempty j : range j <> [] -> 0 < j.
Proof.
  unfold range. destruct (Z.to_nat j) eqn:E; cbn; [congruence | lia].
Qed.

(** On a well-formed state [add] returns, extends the state, counts one
    more element and leaves the bit of every round set. *)
Lemma add_ok it self :
  wf self ->
  exists self',
    add it self = (Ok tt, self')
    /\ extends self self'
    /\ num_elements self' = num_elements self + 1
    /\ forall i, In i (range (k self)) ->
         bit self' (Z.to_nat (index_of self it i)) = true.
Proof.
  intros [Hlen Hk].
  destruct (add_rounds_ok it (range (k self)) self) as (s1 & Hrun & He & Hn & Hbits).
  { intros Hne. apply range_nonempty in Hne. auto. }
  exists (mkFilter (n s1) (p s1) (m s1) (k s1) (bit_array s1) (num_elements s1 + 1)).
  rewrite add_unfold. unfold bind at 1. unfold attr at 1. unfold bind at 1.
  rewrite Hrun. split; [reflexivity|].
  destruct He as (N1 & P1 & M1 & K1 & B1).
  repeat split; cbn; auto; try apply B1; try lia.
Qed.

End Add.

Section Contains.

Lemma contains_rounds_frame it rounds : forall self,
  snd (contains_rounds it rounds self) = self.
Proof.
  induction rounds as [|i rest IH]; intros self; [reflexivity|].
  cbn [contains_rounds]. unfold bind.
  split_outcome (_hash it i self) (hash_frame it i self); [|reflexivity].
  unfold attr, lift.
  destruct (getitem false (bit_array self) _) as [[|]|e']; cbn;
    [apply IH | reflexivity | reflexivity].
Qed.

Lemma contains_frame it self : snd (contains it self) = self.
Proof. unfold contains, bind, attr. apply contains_rounds_frame. Qed.

(** With every addressed bit set, the loop of [contains] runs to its end. *)
Lemma contains_rounds_true it rounds self :
  (rounds <> [] -> 0 < m self /\ List.length (bit_array self) = Z.to_nat (m self)) ->
  (forall i, In i rounds -> bit self (Z.to_nat (index_of self it i)) = true) ->
  contains_rounds it rounds self = (Ok true, self).
Proof.
  induction rounds as [|i rest IH]; intros Hwf Hbits; [reflexivity|].
  destruct Hwf as [Hm Hlen]; [discriminate|].
  cbn [contains_rounds]. unfold bind. rewrite hash_ok by lia.
  unfold attr, lift. rewrite getitem_in_range.
  2:{ pose proof (index_of_range self it i Hm). lia. }
  fold (bit self (Z.to_nat (index_of self it i))).
  rewrite (Hbits i) by (left; reflexivity). cbn [negb].
  apply IH; [auto | intros j Hj; apply Hbits; right; exact Hj].
Qed.

Lemma contains_true it self :
  wf self ->
  (forall i, In i (range (k self)) -> bit self (Z.to_nat (index_of self it i)) = true) ->
  contains it self = (Ok true, self).
Proof.
  intros [Hlen Hk] Hbits. unfold contains, bind, attr.
  apply contains_rounds_true; [|exact Hbits].
  intros Hne. apply range_nonempty in Hne. auto.
Qed.

End Contains.

Section Statistics.

Lemma get_current_false_positive_probability_frame self :
  snd (get_current_false_positive_probability self) = self.
Proof.
  unfold get_current_false_positive_probability, bind, attr, lift, ret.
  destruct (num_elements self =? 0); [reflexivity|].
  destruct (int_truediv _ _); reflexivity.
Qed.

Lemma get_fill_ratio_frame self : snd (get_fill_ratio self) = self.
Proof. reflexivity. Qed.

Lemma print_stats_frame self : snd (print_stats self) = self.
Proof.
  unfold print_stats. unfold bind at 1.
  split_outcome (get_current_false_positive_probability self)
                (get_current_false_positive_probability_frame self);
    [|reflexivity].
  unfold bind at 1.
  split_outcome (get_fill_ratio self) (get_fill_ratio_frame self);
    [|reflexivity].
  unfold bind, attr, lift, ret.
  destruct (int_truediv (m self) 8); [|reflexivity].
  destruct (float_div _ 1024); [|reflexivity].
  destruct (0 <? num_elements self); [|reflexivity].
  destruct (int_truediv (num_elements self) (n self)); reflexivity.
Qed.

End Statistics.

Section Calls.

Lemma bind_ret_state {A B} (c : M A) (f : A -> B) self :
  snd (bind c (fun x => ret (f x)) self) = snd (c self).
Proof. unfold bind, ret. destruct (c self) as [[a|e] s1]; reflexivity. Qed.

(** Every call other than [add] leaves the instance as it found it. *)
Lemma exec_frame c self :
  (forall it, c <> Add it) -> snd (exec c self) = self.
Proof.
  intros Hc. destruct c as [it|it|it| | |]; cbn [exec];
    try rewrite bind_ret_state.
  - exfalso. exact (Hc it eq_refl).
  - apply contains_frame.
  - apply contains_frame.
  - apply get_current_false_positive_probability_frame.
  - apply get_fill_ratio_frame.
  - apply print_stats_frame.
Qed.

Lemma exec_add_state it self : snd (exec (Add it) self) = snd (add it self).
Proof. cbn [exec]. apply bind_ret_state. Qed.

Lemma exec_extends c self : extends self (snd (exec c self)).
Proof.
  destruct c as [it|it|it| | |];
    try (rewrite exec_frame by discriminate; apply extends_refl).
  rewrite exec_add_state. apply add_extends.
Qed.

Lemma run_app calls1 calls2 self :
  run (calls1 ++ calls2) self = run calls2 (run calls1 self).
Proof. unfold run. apply fold_left_app. Qed.

Lemma run_cons c calls self : run (c :: calls) self = run calls (snd (exec c self)).
Proof. reflexivity. Qed.

Lemma run_extends calls : forall self, extends self (run calls self).
Proof.
  induction calls as [|c calls IH]; intros self; [apply extends_refl|].
  rewrite run_cons. eapply extends_trans; [apply exec_extends | apply IH].
Qed.

End Calls.

Section Constructed.

Lemma constructed_wf capacity fpp :
  1 <= capacity -> wf (constructed capacity fpp).
Proof.
  intros Hn. unfold wf, constructed. cbn.
  split; [apply repeat_length|].
  intros Hk.
  destruct (Z.lt_ge_cases 0 (int_of_float (raw_m capacity fpp))) as [H|H]; [exact H|].
  destruct (raw_k_sign (int_of_float (raw_m capacity fpp)) capacity Hn) as [_ Hneg].
  pose proof (int_of_float_nonpos _ (Hneg H)). lia.
Qed.

Lemma new_valid capacity fpp :
  valid_config capacity fpp -> new capacity fpp = Ok (constructed capacity fpp).
Proof. intros [Hn [Hp _]]. apply new_ok; [exact Hp | lia]. Qed.

Lemma new_inv capacity fpp self :
  valid_config capacity fpp -> new capacity fpp = Ok self ->
  self = constructed capacity fpp.
Proof. intros Hv H. rewrite (new_valid _ _ Hv) in H. now inversion H. Qed.

End Constructed.

Section Derived.

Local Open Scope R_scope.

Lemma constructed_m_nonneg capacity fpp :
  valid_config capacity fpp -> (0 <= m (constructed capacity fpp))%Z.
Proof.
  intros Hv. cbn. apply int_of_float_nonneg, raw_m_nonneg, Hv.
Qed.

Lemma constructed_k_floor capacity fpp :
  valid_config capacity fpp ->
  k (constructed capacity fpp)
  = Zfloor (raw_k (m (constructed capacity fpp)) capacity).
Proof.
  intros Hv. cbn. apply int_of_float_floor.
  apply raw_k_sign; [apply Hv|].
  apply (constructed_m_nonneg _ _ Hv).
Qed.

Lemma Zfloor_ge_1 x : (1 <= Zfloor x)%Z <-> 1 <= x.
Proof.
  split; intros H.
  - pose proof (Zfloor_bound x) as [Hl _]. apply IZR_le in H. lra.
  - apply Zfloor_lub. exact H.
Qed.

Lemma int_of_float_opp x : int_of_float (- x) = (- int_of_float x)%Z.
Proof.
  unfold int_of_float, Zceil.
  destruct (Rle_dec 0 x) as [H0|H0], (Rle_dec 0 (- x)) as [H1|H1].
  - assert (x = 0) by lra. subst x. rewrite Ropp_0.
    replace 0 with (IZR 0) by reflexivity. rewrite ZfloorZ. reflexivity.
  - rewrite Ropp_involutive. reflexivity.
  - lia.
  - lra.
Qed.

End Derived.

Lemma constructed_minus_100 :
  constructed (-100) (1 / 100) = mkFilter (-100) (1 / 100) (-958) 6 [] 0.
Proof.
  destruct derived_100_hundredth as [Hm Hk].
  assert (Hm' : int_of_float (raw_m (-100) (1 / 100)) = -958).
  { replace (raw_m (-100) (1 / 100)) with (- raw_m 100 (1 / 100))%R.
    - now rewrite int_of_float_opp, Hm.
    - unfold raw_m. pose proof ln2_pos. field. lra. }
  assert (Hk' : int_of_float (raw_k (-958) (-100)) = 6).
  { replace (raw_k (-958) (-100)) with (raw_k 958 100); [exact Hk|].
    unfold raw_k. field. }
  unfold constructed. rewrite Hm', Hk'. reflexivity.
Qed.

Lemma constructed_100_hundredth :
  constructed 100 (1 / 100) = basic_demo_filter.
Proof.
  unfold constructed. destruct derived_100_hundredth as [Hm Hk].
  now rewrite Hm, Hk.
Qed.

(** Whenever the constructor returns, the instance is [constructed]. *)
Lemma new_returns capacity fpp self :
  new capacity fpp = Ok self -> self = constructed capacity fpp.
Proof.
  intros H. destruct (Rlt_dec 0 fpp) as [Hp|Hp].
  - destruct (Z.eq_dec capacity 0) as [E|E].
    + subst capacity. rewrite new_zero_capacity in H by exact Hp. discriminate.
    + rewrite new_ok in H by assumption. now inversion H.
  - rewrite new_domain_error in H by lra. discriminate.
Qed.

Section EmptyFilter.

Local Open Scope R_scope.

Lemma sum_bools_acc bits : forall acc,
  fold_left (fun a (b : bool) => (a + (if b then 1 else 0))%Z) bits acc
  = (acc + sum_bools bits)%Z.
Proof.
  unfold sum_bools. induction bits as [|b t IH]; intros acc; cbn [fold_left].
  - lia.
  - rewrite IH, (IH (0 + _)%Z). lia.
Qed.

Lemma sum_bools_repeat_false j : sum_bools (repeat false j) = 0%Z.
Proof.
  induction j as [|j IH]; [reflexivity|].
  unfold sum_bools. cbn [repeat fold_left]. rewrite sum_bools_acc, IH. reflexivity.
Qed.

(** With at least one cell, both statistics of a fresh filter are zero. *)
Lemma fresh_statistics capacity fpp :
  (1 <= m (constructed capacity fpp))%Z ->
  get_current_false_positive_probability (constructed capacity fpp)
  = (Ok 0, constructed capacity fpp)
  /\ get_fill_ratio (constructed capacity fpp)
     = (Ok 0, constructed capacity fpp).
Proof.
  intros Hm. split; [reflexivity|].
  unfold get_fill_ratio, bind, attr, lift.
  cbn [bit_array m constructed] in *.
  unfold list_repeat. rewrite sum_bools_repeat_false.
  rewrite int_truediv_nonzero by lia.
  f_equal. f_equal. unfold Rdiv. apply Rmult_0_l.
Qed.

End EmptyFilter.

Section IntItems.

Lemma hash_int_text i seed self :
  _hash (Int i) seed self = _hash (Str (str_of_int i)) seed self.
Proof. reflexivity. Qed.

Lemma contains_rounds_int_text i rounds : forall self,
  contains_rounds (Int i) rounds self
  = contains_rounds (Str (str_of_int i)) rounds self.
Proof.
  induction rounds as [|r rest IH]; intros self; [reflexivity|].
  cbn [contains_rounds]. unfold bind. rewrite hash_int_text.
  destruct (_hash (Str (str_of_int i)) r self) as [[index|e] s1]; [|reflexivity].
  destruct (attr bit_array s1) as [[bits|e] s2]; [|reflexivity].
  destruct (lift (getitem false bits index) s2) as [[[|]|e] s3]; cbn [negb];
    [apply IH | reflexivity | reflexivity].
Qed.

End IntItems.

(* ================================================================== *)
(** * The properties *)
(* ================================================================== *)

(** C1 -- No false negatives.  On a filter built from a valid
    configuration, once [add x] has been called, [contains x] returns
    [True] in the state that follows and in every later one, whatever
    calls were made before and after. *)
Theorem no_false_negatives capacity fpp self0 x before after :
  valid_config capacity fpp ->
  new capacity fpp = Ok self0 ->
  let self := run (before ++ Add x :: after) self0 in
  contains x self = (Ok true, self).
Proof.
  intros Hv Hnew self.
  apply (new_inv _ _ _ Hv) in Hnew. subst self0.
  assert (Hwf0 : wf (constructed capacity fpp)) by (apply constructed_wf, Hv).
  set (s1 := run before (constructed capacity fpp)).
  assert (Hwf1 : wf s1) by (eapply extends_wf; [apply run_extends | exact Hwf0]).
  destruct (add_ok x s1 Hwf1) as (s2 & Hadd & He2 & _ & Hbits).
  assert (Hs : self = run after s2).
  { unfold self. rewrite run_app, run_cons, exec_add_state. fold s1.
    rewrite Hadd. reflexivity. }
  assert (He3 : extends s2 self) by (rewrite Hs; apply run_extends).
  assert (He : extends s1 self) by (eapply extends_trans; eassumption).
  apply contains_true.
  - eapply extends_wf; eassumption.
  - intros i Hi. rewrite (extends_index_of _ _ x i He).
    apply (extends_bit _ _ _ He3). apply Hbits.
    destruct He as (_ & _ & _ & Hk & _). rewrite <- Hk. exact Hi.
Qed.

Lemma no_false_negatives_witness :
  let self :=
    run ([Add (Str "banana")] ++ Add (Str "apple") :: [Add (Int 7)])
        (constructed 100 (1 / 100)) in
  contains (Str "apple") self = (Ok true, self).
Proof.
  apply (no_false_negatives 100 (1 / 100)).
  - split; [lia | lra].
  - apply new_valid. split; [lia | lra].
Defined.

(** C2, refuted as stated -- no configuration is rejected with
    [InvalidConfiguration]: p=1 is accepted, capacity=0 and p=0 fail
    with the exceptions of the arithmetic. *)
Lemma invalid_configuration_counterexample :
  new 1 1 = Ok (mkFilter 1 1 0 0 [] 0)
  /\ new 0 (1 / 2) = Raise ZeroDivisionError
  /\ new 1 0 = Raise ValueError.
Proof.
  split; [|split].
  - rewrite new_ok by (lra || lia). now rewrite constructed_1_1.
  - apply new_zero_capacity. lra.
  - apply new_domain_error. lra.
Qed.

(** C2, amended -- the constructor validates nothing and never raises
    [InvalidConfiguration].  A target that is not positive fails with
    the [ValueError] of [math.log], whatever the capacity; capacity 0
    with a positive (finite) target fails with the [ZeroDivisionError] of
    [self.m / self.n].  Other inputs outside the valid range are not
    rejected as such: capacity=1, p=1 and capacity=-100, p=0.01 both yield
    a filter.  The boundary input capacity=1, p=0.5 is accepted. *)
Theorem construction_outcome capacity fpp :
  ((fpp <= 0)%R -> new capacity fpp = Raise ValueError)
  /\ ((0 < fpp)%R -> new 0 fpp = Raise ZeroDivisionError)
  /\ new capacity fpp <> Raise InvalidConfiguration
  /\ new 1 1 = Ok (mkFilter 1 1 0 0 [] 0)
  /\ new (-100) (1 / 100) = Ok (mkFilter (-100) (1 / 100) (-958) 6 [] 0)
  /\ new 1 (1 / 2) = Ok (mkFilter 1 (1 / 2) 1 0 [false] 0).
Proof.
  split; [apply new_domain_error|]. split; [apply new_zero_capacity|].
  split; [|split; [|split]].
  - destruct (Rlt_dec 0 fpp) as [Hp|Hp].
    + destruct (Z.eq_dec capacity 0) as [E|E].
      * subst capacity. rewrite new_zero_capacity by exact Hp. discriminate.
      * rewrite new_ok by assumption. discriminate.
    + rewrite new_domain_error by lra. discriminate.
  - rewrite new_ok by (lra || lia). now rewrite constructed_1_1.
  - rewrite new_ok by (lra || lia). now rewrite constructed_minus_100.
  - rewrite new_ok by (lra || lia). now rewrite constructed_1_half.
Qed.

Lemma construction_outcome_witness :
  new 100 (-1) = Raise ValueError
  /\ new 0 (1 / 100) = Raise ZeroDivisionError.
Proof.
  split.
  - destruct (construction_outcome 100 (-1)) as (H & _). apply H. lra.
  - destruct (construction_outcome 0 (1 / 100)) as (_ & H & _). apply H. lra.
Defined.

(** C3, refuted as stated -- capacity=1, p=0.5 is valid and yields no
    hash round at all. *)
Lemma parameter_bounds_counterexample :
  valid_config 1 (1 / 2)
  /\ exists self, new 1 (1 / 2) = Ok self /\ m self = 1 /\ k self = 0.
Proof.
  split; [split; [lia | lra]|].
  exists (mkFilter 1 (1 / 2) 1 0 [false] 0).
  rewrite new_ok by (lra || lia). now rewrite constructed_1_half.
Qed.

(** C3, amended -- for every valid configuration on which construction
    returns a filter, the number of hash rounds satisfies [k >= 0], not
    [k >= 1]: [k = 0] whenever [m <= capacity] (capacity=1, p=0.5 gives
    m=1 and k=0), and [k >= 1] whenever [m >= 2 * capacity]. *)
Theorem parameter_bounds capacity fpp self :
  valid_config capacity fpp ->
  new capacity fpp = Ok self ->
  0 <= k self
  /\ (m self <= capacity -> k self = 0)
  /\ (2 * capacity <= m self -> 1 <= k self).
Proof.
  intros Hv Hnew. apply (new_inv _ _ _ Hv) in Hnew. subst self.
  pose proof (constructed_m_nonneg _ _ Hv) as Hm.
  pose proof (constructed_k_floor _ _ Hv) as Hk.
  set (bits := m (constructed capacity fpp)) in *.
  pose proof (proj1 (raw_k_sign bits capacity (proj1 Hv)) Hm) as Hpos.
  pose proof ln2_lower as Hl. pose proof ln2_upper as Hu.
  assert (Hc : (1 <= IZR capacity)%R) by (apply IZR_le, Hv).
  assert (Hb : (0 <= IZR bits)%R) by (apply IZR_le, Hm).
  assert (Hic : (0 < / IZR capacity)%R) by (apply Rinv_0_lt_compat; lra).
  assert (Hcc : (IZR capacity * / IZR capacity = 1)%R) by (apply Rinv_r; lra).
  rewrite Hk. split; [apply Zfloor_lub, Hpos|]. split.
  - intros Hle. apply Zfloor_eq. split; [exact Hpos|].
    apply IZR_le in Hle. unfold raw_k, Rdiv.
    assert (Hq : (IZR bits * / IZR capacity <= 1)%R) by nra.
    assert (Hq0 : (0 <= IZR bits * / IZR capacity)%R) by nra.
    replace (IZR 0) with 0%R by reflexivity. nra.
  - intros Hge. apply Zfloor_lub.
    apply IZR_le in Hge. rewrite mult_IZR in Hge. unfold raw_k, Rdiv.
    assert (Hq : (2 <= IZR bits * / IZR capacity)%R) by nra.
    nra.
Qed.

Lemma parameter_bounds_witness :
  k (constructed 1 (1 / 2)) = 0
  /\ 1 <= k (constructed 100 (1 / 100)).
Proof.
  split.
  - destruct (parameter_bounds 1 (1 / 2) (constructed 1 (1 / 2))) as (_ & H & _).
    + split; [lia | lra].
    + apply new_valid. split; [lia | lra].
    + apply H. rewrite constructed_1_half. cbn. lia.
  - destruct (parameter_bounds 100 (1 / 100) (constructed 100 (1 / 100)))
      as (_ & _ & H).
    + split; [lia | lra].
    + apply new_valid. split; [lia | lra].
    + apply H. rewrite constructed_100_hundredth. cbn. lia.
Defined.

(** C4, refuted as stated -- at capacity=1, p=0.5 the constructor
    derives m=1 and k=0 where the formulas of the claim give 2 and 1. *)
Lemma sizing_formulas_counterexample :
  exists self,
    new 1 (1 / 2) = Ok self
    /\ m self = 1 /\ claimed_m 1 (1 / 2) = 2
    /\ k self = 0 /\ claimed_k (m self) 1 = 1.
Proof.
  exists (mkFilter 1 (1 / 2) 1 0 [false] 0).
  rewrite new_ok by (lra || lia). rewrite constructed_1_half.
  pose proof ln2_lower as Hl. pose proof ln2_upper as Hu.
  repeat split.
  - unfold claimed_m, Zceil, raw_m. rewrite ln_half.
    assert (H : Zfloor (- (- IZR 1 * - ln 2 / ln 2 ^ 2)) = (-2)%Z); [|now rewrite H].
    apply Zfloor_eq.
    replace (- (- IZR 1 * - ln 2 / ln 2 ^ 2))%R with (- / ln 2)%R by (field; lra).
    assert (Hinv : (ln 2 * / ln 2 = 1)%R) by (apply Rinv_r; lra).
    assert (Hpos : (0 < / ln 2)%R) by (apply Rinv_0_lt_compat; lra).
    assert (H1 : (1 < / ln 2)%R) by nra.
    assert (H2 : (/ ln 2 < 2)%R) by nra.
    split; [|lra].
    replace (IZR (-2)) with (-2)%R by reflexivity. lra.
  - unfold claimed_k, raw_k. cbn [m].
    assert (H : Zfloor (IZR 1 / IZR 1 * ln 2) = 0%Z); [|now rewrite H].
    apply Zfloor_eq. lra.
Qed.

(** C4, amended -- for every valid configuration on which construction
    returns a filter, [k] is the integer part of the float product
    [(m / capacity) * ln 2] for the [m] it derived, with no minimum of
    one.  With [x] the real product and [t = 2^-50] a bound on the
    rounding of the float product, [x * (1 - t) - 1 < k <= x * (1 + t)],
    and [k = 0] whenever [x < 1 - t] (capacity=1, p=0.5: m=1, k=0). *)
Theorem hash_rounds_formula capacity fpp self :
  valid_config capacity fpp ->
  new capacity fpp = Ok self ->
  (raw_k (m self) capacity * (1 - rounding_tolerance) - 1 < IZR (k self)
   <= raw_k (m self) capacity * (1 + rounding_tolerance))%R
  /\ ((raw_k (m self) capacity < 1 - rounding_tolerance)%R -> k self = 0).
Proof.
  intros Hv Hnew. apply (new_inv _ _ _ Hv) in Hnew. subst self.
  pose proof (constructed_m_nonneg _ _ Hv) as Hm.
  pose proof (constructed_k_floor _ _ Hv) as Hk.
  set (bits := m (constructed capacity fpp)) in *.
  pose proof (proj1 (raw_k_sign bits capacity (proj1 Hv)) Hm) as Hpos.
  pose proof (Zfloor_bound (raw_k bits capacity)) as [Hf1 Hf2].
  assert (Ht : (0 < rounding_tolerance < 1)%R).
  { unfold rounding_tolerance. split.
    - apply Rinv_0_lt_compat. apply pow_lt. lra.
    - rewrite <- Rinv_1. apply Rinv_lt_contravar; [|].
      + rewrite Rmult_1_l. apply pow_lt. lra.
      + apply Rlt_pow_R1; [lra | lia]. }
  rewrite Hk. split; [split|].
  - nra.
  - nra.
  - intros Hlt. apply Zfloor_eq. split; [exact Hpos|].
    replace (IZR 0) with 0%R by reflexivity. lra.
Qed.

Lemma hash_rounds_formula_witness :
  k (constructed 1 (1 / 2)) = 0.
Proof.
  destruct (hash_rounds_formula 1 (1 / 2) (constructed 1 (1 / 2))) as (_ & H).
  - split; [lia | lra].
  - apply new_valid. split; [lia | lra].
  - apply H. rewrite constructed_1_half. cbn [m]. unfold raw_k, rounding_tolerance.
    pose proof ln2_upper as Hu.
    assert (Hp : (/ 2 ^ 50 <= / 2)%R).
    { apply Rinv_le_contravar; [lra|].
      replace 2%R with (2 ^ 1)%R at 1 by lra. apply Rle_pow; [lra | lia]. }
    replace (IZR 1) with 1%R by reflexivity. lra.
Defined.

(** C5 -- the sizing example on the code: capacity=100, p=0.01 yields
    m=958 (the quotient 958.50... is truncated) and k=6; likewise
    capacity=10, p=0.3 yields m=25. *)
Theorem sizing_example :
  new 100 (1 / 100)
  = Ok (mkFilter 100 (1 / 100) 958 6 (list_repeat false 958) 0)
  /\ new 10 (3 / 10)
     = Ok (mkFilter 10 (3 / 10) 25 1 (list_repeat false 25) 0).
Proof.
  split; rewrite new_ok by (lra || lia); unfold constructed.
  - destruct derived_100_hundredth as [Hm Hk]. now rewrite Hm, Hk.
  - destruct derived_10_three_tenths as [Hm Hk]. now rewrite Hm, Hk.
Qed.

(** C6 -- the empty-filter queries on the code: capacity=1, p=0.9 is
    valid and yields an empty bit array, on which [get_fill_ratio]
    raises [ZeroDivisionError]. *)
Theorem empty_filter_fill_ratio :
  valid_config 1 (9 / 10)
  /\ exists self,
       new 1 (9 / 10) = Ok self
       /\ num_elements self = 0
       /\ get_current_false_positive_probability self = (Ok 0%R, self)
       /\ get_fill_ratio self = (Raise ZeroDivisionError, self).
Proof.
  split; [split; [lia | lra]|].
  exists (mkFilter 1 (9 / 10) 0 0 [] 0).
  rewrite new_ok by (lra || lia). rewrite constructed_1_nine_tenths.
  repeat split.
Qed.

(** C7 -- Bit-array monotonicity and fixed length.  Along any sequence
    of calls on a filter built from a valid configuration, the bit array
    has exactly [m] cells, [m] is the one derived at construction, and a
    bit that is set stays set through whatever calls follow. *)
Theorem bit_array_monotone capacity fpp self0 before after :
  valid_config capacity fpp ->
  new capacity fpp = Ok self0 ->
  let self := run before self0 in
  let self' := run (before ++ after) self0 in
  Z.of_nat (List.length (bit_array self)) = m self
  /\ m self = m self0
  /\ List.length (bit_array self') = List.length (bit_array self)
  /\ forall j, bit self j = true -> bit self' j = true.
Proof.
  intros Hv Hnew self self'.
  apply (new_inv _ _ _ Hv) in Hnew. subst self0.
  pose proof (constructed_m_nonneg _ _ Hv) as Hm0.
  assert (Hwf0 : wf (constructed capacity fpp)) by (apply constructed_wf, Hv).
  assert (He : extends (constructed capacity fpp) self) by apply run_extends.
  assert (He' : extends self self').
  { unfold self', self. rewrite run_app. apply run_extends. }
  destruct (extends_wf _ _ He Hwf0) as [Hlen _].
  destruct He as (_ & _ & Hm & _).
  destruct He' as (_ & _ & _ & _ & [Hlen' Hbits]).
  repeat split; auto. rewrite Hlen, Hm. lia.
Qed.

Lemma bit_array_monotone_witness :
  let self := run [Add (Str "apple")] (constructed 100 (1 / 100)) in
  let self' :=
    run ([Add (Str "apple")] ++ [Contains (Str "kiwi"); Add (Int 3); PrintStats])
        (constructed 100 (1 / 100)) in
  Z.of_nat (List.length (bit_array self)) = m self
  /\ m self = m (constructed 100 (1 / 100))
  /\ List.length (bit_array self') = List.length (bit_array self)
  /\ forall j, bit self j = true -> bit self' j = true.
Proof.
  apply (bit_array_monotone 100 (1 / 100)).
  - split; [lia | lra].
  - apply new_valid. split; [lia | lra].
Defined.

(** C8 -- Element counter.  After any sequence of calls on a filter
    built from a valid configuration, [add] returns without raising, for
    any item, and the counter is one more than before; every other call
    leaves the counter as it was. *)
Theorem add_counts_one capacity fpp self0 calls x :
  valid_config capacity fpp ->
  new capacity fpp = Ok self0 ->
  let self := run calls self0 in
  (exists self', add x self = (Ok tt, self')
                 /\ num_elements self' = num_elements self + 1)
  /\ forall c, (forall it, c <> Add it) ->
               num_elements (snd (exec c self)) = num_elements self.
Proof.
  intros Hv Hnew self.
  apply (new_inv _ _ _ Hv) in Hnew. subst self0.
  assert (Hwf : wf self).
  { eapply extends_wf; [apply run_extends | apply constructed_wf, Hv]. }
  split.
  - destruct (add_ok x self Hwf) as (s' & Hadd & _ & Hn & _). eauto.
  - intros c Hc. now rewrite exec_frame.
Qed.

Lemma add_counts_one_witness :
  let self := run [Add (Str "apple"); GetFillRatio]
                  (constructed 100 (1 / 100)) in
  (exists self', add (Str "apple") self = (Ok tt, self')
                 /\ num_elements self' = num_elements self + 1)
  /\ forall c, (forall it, c <> Add it) ->
               num_elements (snd (exec c self)) = num_elements self.
Proof.
  apply (add_counts_one 100 (1 / 100)).
  - split; [lia | lra].
  - apply new_valid. split; [lia | lra].
Defined.

(** C9 -- Frame conditions.  In any state, [contains], the [in]
    operator, [get_fill_ratio],
    [get_current_false_positive_probability] and [print_stats] return
    the instance exactly as they received it, and no call, [add]
    included, changes [n], [p], [m] or [k]. *)
Theorem queries_leave_state self x c :
  snd (contains x self) = self
  /\ snd (__contains__ x self) = self
  /\ snd (get_fill_ratio self) = self
  /\ snd (get_current_false_positive_probability self) = self
  /\ snd (print_stats self) = self
  /\ n (snd (exec c self)) = n self
  /\ p (snd (exec c self)) = p self
  /\ m (snd (exec c self)) = m self
  /\ k (snd (exec c self)) = k self.
Proof.
  destruct (exec_extends c self) as (Hn & Hp & Hm & Hk & _).
  repeat split; auto using contains_frame, get_fill_ratio_frame,
    get_current_false_positive_probability_frame, print_stats_frame.
Qed.

(** C10 -- An [int] and the [str] of its decimal text are the same item:
    [add] leaves the same state and outcome, [contains] returns the same
    result, and the [in] operator is [contains]. *)
Theorem int_and_text_agree self i x :
  add (Int i) self = add (Str (str_of_int i)) self
  /\ contains (Int i) self = contains (Str (str_of_int i)) self
  /\ __contains__ x self = contains x self.
Proof.
  split; [reflexivity|]. split; [|reflexivity].
  unfold contains, bind, attr. apply contains_rounds_int_text.
Qed.

(* ================================================================== *)
(** * Writes to the bit array *)
(* ================================================================== *)

Section Cells.

Lemma set_bits_length cells : forall bits,
  List.length (set_bits bits cells) = List.length bits.
Proof.
  induction cells as [|j rest IH]; intros bits; [reflexivity|].
  cbn [set_bits fold_left]. fold (set_bits (set_nth bits j true) rest).
  rewrite IH. apply set_nth_length.
Qed.

Lemma set_bits_cons bits j rest :
  set_bits bits (j :: rest) = set_bits (set_nth bits j true) rest.
Proof. reflexivity. Qed.

(** Cell [j'] after the writes: set before, or written and inside the
    array. *)
Lemma nth_set_bits cells : forall bits j',
  nth j' (set_bits bits cells) false
  = nth j' bits false
    || (existsb (Nat.eqb j') cells && (j' <? List.length bits)%nat).
Proof.
  induction cells as [|j rest IH]; intros bits j'.
  - cbn. now rewrite orb_false_r.
  - rewrite set_bits_cons, IH, set_nth_length. cbn [existsb].
    destruct (Nat.eqb_spec j' j) as [->|Hne].
    + destruct (Nat.ltb_spec j (List.length bits)) as [Hlt|Hge].
      * rewrite nth_set_nth_same by exact Hlt. cbn. now rewrite orb_true_r.
      * assert (H : set_nth bits j true = bits).
        { clear -Hge. revert j Hge.
          induction bits as [|h t IHb]; intros [|j] H; cbn in *; try reflexivity; try lia.
          f_equal. apply IHb. lia. }
        rewrite H. now rewrite !andb_false_r.
    + rewrite nth_set_nth_other by congruence. reflexivity.
Qed.

Lemma list_bool_ext (l1 l2 : list bool) :
  List.length l1 = List.length l2 ->
  (forall j, nth j l1 false = nth j l2 false) -> l1 = l2.
Proof.
  intros Hlen H. apply (nth_ext l1 l2 false false Hlen). intros j _. apply H.
Qed.

(** Writing cells that are already set changes nothing. *)
Lemma set_bits_already_set bits cells :
  forallb (fun j => nth j bits false) cells = true ->
  set_bits bits cells = bits.
Proof.
  intros H. apply list_bool_ext; [apply set_bits_length|].
  intros j. rewrite nth_set_bits.
  destruct (nth j bits false) eqn:Ej; [reflexivity|]. cbn.
  destruct (existsb (Nat.eqb j) cells) eqn:Ex; [|reflexivity].
  apply existsb_exists in Ex as (j0 & Hin & Heq).
  apply Nat.eqb_eq in Heq. subst j0.
  rewrite forallb_forall in H. rewrite (H j Hin) in Ej. discriminate.
Qed.

(** The order of two batches of writes is immaterial. *)
Lemma set_bits_comm bits cells1 cells2 :
  set_bits (set_bits bits cells1) cells2
  = set_bits (set_bits bits cells2) cells1.
Proof.
  apply list_bool_ext; [now rewrite !set_bits_length|].
  intros j. rewrite !nth_set_bits, !set_bits_length.
  destruct (nth j bits false), (existsb (Nat.eqb j) cells1),
    (existsb (Nat.eqb j) cells2), (j <? List.length bits)%nat; reflexivity.
Qed.

Lemma set_bits_all_set bits cells :
  (forall j, List.In j cells -> (j < List.length bits)%nat) ->
  forallb (fun j => nth j (set_bits bits cells) false) cells = true.
Proof.
  intros Hin. apply forallb_forall. intros j Hj.
  rewrite nth_set_bits.
  assert (Hex : existsb (Nat.eqb j) cells = true).
  { apply existsb_exists. exists j. split; [exact Hj | apply Nat.eqb_refl]. }
  rewrite Hex. apply Hin in Hj. apply Nat.ltb_lt in Hj. rewrite Hj.
  apply orb_true_r.
Qed.

End Cells.

Section Methods.

Lemma indices_in_range self it :
  wf self -> forall j, List.In j (indices self it) ->
  (j < List.length (bit_array self))%nat.
Proof.
  intros [Hlen Hk] j Hj. unfold indices in Hj.
  apply in_map_iff in Hj as (i & <- & Hi).
  assert (Hm : 0 < m self).
  { apply Hk, range_nonempty. intros E. rewrite E in Hi. exact Hi. }
  pose proof (index_of_range self it i Hm). lia.
Qed.

Lemma add_rounds_state it rounds : forall self,
  (rounds <> [] -> 0 < m self /\ List.length (bit_array self) = Z.to_nat (m self)) ->
  for_each rounds (add_round it) self
  = (Ok tt,
     mkFilter (n self) (p self) (m self) (k self)
       (set_bits (bit_array self)
                 (map (fun i => Z.to_nat (index_of self it i)) rounds))
       (num_elements self)).
Proof.
  induction rounds as [|i rest IH]; intros self Hwf.
  - cbn. now destruct self.
  - destruct Hwf as [Hm Hlen]; [discriminate|].
    cbn [for_each]. unfold bind. rewrite add_round_ok by assumption.
    rewrite IH.
    + reflexivity.
    + intros _. cbn. rewrite set_nth_length. auto.
Qed.

(** On a well-formed state [add] returns and leaves [added self it]. *)
Lemma add_state it self : wf self -> add it self = (Ok tt, added self it).
Proof.
  intros [Hlen Hk]. rewrite add_unfold.
  unfold bind at 1. unfold attr at 1. unfold bind at 1.
  rewrite add_rounds_state; [reflexivity|].
  intros Hne. apply range_nonempty in Hne. auto.
Qed.

Lemma added_wf self it : wf self -> wf (added self it).
Proof.
  intros [Hlen Hk]. split; cbn; [|exact Hk].
  now rewrite set_bits_length.
Qed.

Lemma contains_rounds_spec it rounds self :
  (rounds <> [] -> 0 < m self /\ List.length (bit_array self) = Z.to_nat (m self)) ->
  contains_rounds it rounds self
  = (Ok (forallb (bit self)
           (map (fun i => Z.to_nat (index_of self it i)) rounds)), self).
Proof.
  induction rounds as [|i rest IH]; intros Hwf; [reflexivity|].
  destruct Hwf as [Hm Hlen]; [discriminate|].
  cbn [contains_rounds]. unfold bind. rewrite hash_ok by lia.
  unfold attr, lift. rewrite getitem_in_range.
  2:{ pose proof (index_of_range self it i Hm). lia. }
  fold (bit self (Z.to_nat (index_of self it i))).
  cbn [map forallb].
  destruct (bit self (Z.to_nat (index_of self it i))); cbn [negb andb].
  - apply IH. auto.
  - reflexivity.
Qed.

(** On a well-formed state [contains] returns whether all the cells of
    the item are set, and leaves the state. *)
Lemma contains_spec it self :
  wf self -> contains it self = (Ok (all_set self it), self).
Proof.
  intros [Hlen Hk]. unfold contains, bind, attr.
  apply contains_rounds_spec.
  intros Hne. apply range_nonempty in Hne. auto.
Qed.

Lemma extends_indices s s' it : extends s s' -> indices s' it = indices s it.
Proof.
  intros (_ & _ & Hm & Hk & _). unfold indices, index_of. now rewrite Hm, Hk.
Qed.

Lemma extends_all_set s s' it :
  extends s s' -> all_set s it = true -> all_set s' it = true.
Proof.
  intros He H. unfold all_set in *. rewrite (extends_indices _ _ _ He).
  rewrite forallb_forall in *. intros j Hj.
  apply (extends_bit _ _ _ He). apply H. exact Hj.
Qed.

End Methods.

(* ================================================================== *)
(** * Reachable states, [contains] and [add] *)
(* ================================================================== *)

Section Reachable.

Lemma reachable_wf self : reachable self -> wf self.
Proof.
  intros (capacity & fpp & self0 & calls & Hv & Hnew & ->).
  apply (new_inv _ _ _ Hv) in Hnew. subst self0.
  eapply extends_wf; [apply run_extends | apply constructed_wf, Hv].
Qed.

Lemma reachable_run self calls : reachable self -> reachable (run calls self).
Proof.
  intros (capacity & fpp & self0 & calls0 & Hv & Hnew & ->).
  exists capacity, fpp, self0, (calls0 ++ calls).
  repeat split; try assumption; try apply Hv. now rewrite run_app.
Qed.

Lemma reachable_basic_demo calls : reachable (run calls basic_demo_filter).
Proof.
  exists 100, (1 / 100)%R, basic_demo_filter, calls.
  split; [split; [lia | lra]|]. split; [|reflexivity].
  rewrite new_ok by (lra || lia). now rewrite constructed_100_hundredth.
Qed.

End Reachable.

(** X1 -- [_hash] with a positive [m] returns an index [i] with
    [0 <= i < m] and leaves the object untouched, for any item and seed. *)
Theorem hash_index_range it seed self :
  0 < m self ->
  exists i, _hash it seed self = (Ok i, self) /\ 0 <= i < m self.
Proof.
  intros Hm. exists (index_of self it seed).
  split; [apply hash_ok; lia | apply index_of_range, Hm].
Qed.

Lemma hash_index_range_witness :
  exists i, _hash (Str "apple") 3 basic_demo_filter = (Ok i, basic_demo_filter)
            /\ 0 <= i < m basic_demo_filter.
Proof. apply hash_index_range. reflexivity. Defined.

(** X2 -- In a reachable state [contains] never raises, leaves the
    object untouched, and returns [True] exactly when each of the [k]
    cells of the item is set. *)
Theorem contains_iff_cells_set self it :
  reachable self ->
  exists b, contains it self = (Ok b, self)
            /\ (b = true <->
                forall i, List.In i (range (k self)) ->
                          bit self (Z.to_nat (index_of self it i)) = true).
Proof.
  intros Hr. exists (all_set self it).
  split; [apply contains_spec, reachable_wf, Hr|].
  unfold all_set, indices. rewrite forallb_forall. split.
  - intros H i Hi. apply H. apply in_map_iff. eauto.
  - intros H j Hj. apply in_map_iff in Hj as (i & <- & Hi). auto.
Qed.

Lemma contains_iff_cells_set_witness :
  let self := run [Add (Str "apple")] basic_demo_filter in
  exists b, contains (Str "kiwi") self = (Ok b, self)
            /\ (b = true <->
                forall i, List.In i (range (k self)) ->
                          bit self (Z.to_nat (index_of self (Str "kiwi") i)) = true).
Proof. apply contains_iff_cells_set. apply reachable_basic_demo. Defined.

(** X3 -- Adding an item that [contains] already reports leaves the bit
    array exactly as it is and only counts one more element; this covers
    duplicates and false positives alike. *)
Theorem add_of_reported_item self it :
  reachable self ->
  contains it self = (Ok true, self) ->
  add it self
  = (Ok tt, mkFilter (n self) (p self) (m self) (k self)
                     (bit_array self) (num_elements self + 1)).
Proof.
  intros Hr Hc. pose proof (reachable_wf _ Hr) as Hwf.
  rewrite contains_spec in Hc by exact Hwf.
  assert (Hall : all_set self it = true) by congruence.
  rewrite add_state by exact Hwf. unfold added.
  now rewrite (set_bits_already_set _ _ Hall).
Qed.

Lemma add_of_reported_item_witness :
  let self := run [Add (Str "apple")] basic_demo_filter in
  add (Str "apple") self
  = (Ok tt, mkFilter (n self) (p self) (m self) (k self)
                     (bit_array self) (num_elements self + 1)).
Proof.
  apply add_of_reported_item.
  - apply reachable_basic_demo.
  - vm_compute. reflexivity.
Defined.

(** X4 -- Two [add] calls commute: in a reachable state, adding [x] then
    [y] and adding [y] then [x] both return and leave the same object. *)
Theorem add_commutes self x y :
  reachable self ->
  exists self',
    bind (add x) (fun _ => add y) self = (Ok tt, self')
    /\ bind (add y) (fun _ => add x) self = (Ok tt, self').
Proof.
  intros Hr. pose proof (reachable_wf _ Hr) as Hwf.
  exists (added (added self x) y). unfold bind.
  rewrite (add_state x self), (add_state y self) by exact Hwf.
  rewrite (add_state y (added self x)), (add_state x (added self y))
    by (apply added_wf, Hwf).
  split; [reflexivity|]. f_equal.
  unfold added, indices, index_of. cbn [n p m k bit_array num_elements].
  f_equal. apply set_bits_comm.
Qed.

Lemma add_commutes_witness :
  exists self',
    bind (add (Str "apple")) (fun _ => add (Int 42)) basic_demo_filter
    = (Ok tt, self')
    /\ bind (add (Int 42)) (fun _ => add (Str "apple")) basic_demo_filter
       = (Ok tt, self').
Proof. apply add_commutes. apply (reachable_basic_demo []). Defined.

(** X5 -- A positive answer is permanent: once [contains] has returned
    [True] for an item, added or not, it returns [True] after any further
    calls. *)
Theorem positive_answers_persist self it calls :
  reachable self ->
  contains it self = (Ok true, self) ->
  contains it (run calls self) = (Ok true, run calls self).
Proof.
  intros Hr Hc. pose proof (reachable_wf _ Hr) as Hwf.
  rewrite contains_spec in Hc by exact Hwf.
  assert (Hall : all_set self it = true) by congruence.
  pose proof (run_extends calls self) as He.
  rewrite contains_spec by (eapply extends_wf; eassumption).
  now rewrite (extends_all_set _ _ _ He Hall).
Qed.

Lemma positive_answers_persist_witness :
  let self := run [Add (Str "apple")] basic_demo_filter in
  let calls := [Add (Str "banana"); PrintStats; Add (Int 5)] in
  contains (Str "apple") (run calls self) = (Ok true, run calls self).
Proof.
  apply positive_answers_persist.
  - apply reachable_basic_demo.
  - vm_compute. reflexivity.
Defined.

(** X6 -- A freshly constructed filter with at least one hash round
    reports no item at all. *)
Theorem fresh_filter_reports_nothing capacity fpp self it :
  valid_config capacity fpp ->
  new capacity fpp = Ok self ->
  1 <= k self ->
  contains it self = (Ok false, self).
Proof.
  intros Hv Hnew Hk.
  apply (new_inv _ _ _ Hv) in Hnew. subst self.
  pose proof (constructed_wf capacity fpp (proj1 Hv)) as Hwf.
  rewrite contains_spec by exact Hwf. f_equal. f_equal.
  unfold all_set, indices, range.
  destruct (Z.to_nat (k (constructed capacity fpp))) as [|j] eqn:E; [lia|].
  cbn [seq map forallb]. unfold bit at 1. cbn [bit_array constructed].
  unfold list_repeat.
  assert (H : forall j' c, nth j' (repeat false c) false = false).
  { intros j' c. revert j'. induction c as [|c IH]; intros [|j']; cbn; auto. }
  now rewrite H.
Qed.

Lemma fresh_filter_reports_nothing_witness :
  contains (Str "grape") (constructed 100 (1 / 100))
  = (Ok false, constructed 100 (1 / 100)).
Proof.
  apply (fresh_filter_reports_nothing 100 (1 / 100)).
  - split; [lia | lra].
  - apply new_valid. split; [lia | lra].
  - rewrite constructed_100_hundredth. cbn. lia.
Defined.

(** X7 -- With no hash round ([k <= 0]) the filter is degenerate: in any
    state [contains] returns [True] for every item and [add] only
    increments the counter.  The valid configuration capacity=1, p=0.5
    builds such a filter. *)
Theorem zero_rounds_report_everything self it :
  k self <= 0 ->
  contains it self = (Ok true, self)
  /\ add it self
     = (Ok tt, mkFilter (n self) (p self) (m self) (k self)
                        (bit_array self) (num_elements self + 1)).
Proof.
  intros Hk.
  assert (Hr : range (k self) = []).
  { unfold range. now replace (Z.to_nat (k self)) with 0%nat by lia. }
  split.
  - unfold contains, bind, attr. now rewrite Hr.
  - rewrite add_unfold. unfold bind, attr. now rewrite Hr.
Qed.

Lemma zero_rounds_report_everything_witness :
  let self := constructed 1 (1 / 2) in
  contains (Str "never added") self = (Ok true, self)
  /\ add (Str "never added") self
     = (Ok tt, mkFilter (n self) (p self) (m self) (k self)
                        (bit_array self) (num_elements self + 1)).
Proof.
  apply zero_rounds_report_everything.
  rewrite constructed_1_half. cbn. lia.
Defined.

(* ================================================================== *)
(** * Counting *)
(* ================================================================== *)

Section Counting.

Lemma sum_bools_cons b t :
  sum_bools (b :: t) = (if b then 1 else 0) + sum_bools t.
Proof. unfold sum_bools at 1. cbn [fold_left]. now rewrite sum_bools_acc. Qed.

Lemma sum_bools_bounds bits :
  0 <= sum_bools bits <= Z.of_nat (List.length bits).
Proof.
  induction bits as [|b t IH]; [cbn; lia|].
  rewrite sum_bools_cons. cbn [List.length]. destruct b; lia.
Qed.

(** A bit array that extends another has at least as many set bits. *)
Lemma sum_bools_le bits : forall bits',
  bits_le bits bits' -> sum_bools bits <= sum_bools bits'.
Proof.
  induction bits as [|b t IH]; intros [|b' t'] [Hlen Hbits]; cbn in Hlen; try lia.
  rewrite !sum_bools_cons.
  assert (Ht : sum_bools t <= sum_bools t').
  { apply IH. split; [lia|]. intros j Hj. apply (Hbits (S j)). exact Hj. }
  destruct b, b'; try lia.
  specialize (Hbits 0%nat eq_refl). discriminate.
Qed.

Lemma sum_bools_set_nth bits : forall j,
  sum_bools (set_nth bits j true) <= sum_bools bits + 1.
Proof.
  induction bits as [|b t IH]; intros [|j]; cbn [set_nth]; rewrite ?sum_bools_cons.
  - cbn. lia.
  - cbn. lia.
  - destruct b; lia.
  - specialize (IH j). lia.
Qed.

Lemma sum_bools_set_bits cells : forall bits,
  sum_bools (set_bits bits cells)
  <= sum_bools bits + Z.of_nat (List.length cells).
Proof.
  induction cells as [|j rest IH]; intros bits.
  { unfold set_bits. cbn [fold_left List.length]. lia. }
  rewrite set_bits_cons. cbn [List.length].
  specialize (IH (set_nth bits j true)).
  pose proof (sum_bools_set_nth bits j). lia.
Qed.

Lemma indices_length self it :
  List.length (indices self it) = Z.to_nat (k self).
Proof. unfold indices, range. now rewrite !length_map, length_seq. Qed.

Lemma exec_state c self :
  wf self ->
  snd (exec c self)
  = match c with Add it => added self it | _ => self end.
Proof.
  intros Hwf. destruct c as [it|it|it| | |];
    try (apply exec_frame; discriminate).
  rewrite exec_add_state, add_state by exact Hwf. reflexivity.
Qed.

Lemma count_adds_cons c calls :
  count_adds (c :: calls)
  = (match c with Add _ => 1 | _ => 0 end) + count_adds calls.
Proof. unfold count_adds. cbn [List.filter]. destruct c; cbn [List.length]; lia. Qed.

Lemma run_counter calls : forall self,
  wf self ->
  num_elements (run calls self) = num_elements self + count_adds calls.
Proof.
  induction calls as [|c calls IH]; intros self Hwf.
  - cbn. unfold count_adds. cbn. lia.
  - rewrite run_cons, count_adds_cons, exec_state by exact Hwf.
    destruct c as [it|it|it| | |]; rewrite IH; try assumption; try lia.
    + cbn [added num_elements]. lia.
    + apply added_wf, Hwf.
Qed.

(** At most [k] bits are set per element counted. *)
Lemma run_set_bits calls : forall self,
  wf self -> 0 <= k self ->
  sum_bools (bit_array self) <= k self * num_elements self ->
  sum_bools (bit_array (run calls self))
  <= k (run calls self) * num_elements (run calls self).
Proof.
  induction calls as [|c calls IH]; intros self Hwf Hk Hinv; [exact Hinv|].
  rewrite run_cons, exec_state by exact Hwf.
  destruct c as [it|it|it| | |]; try (apply IH; assumption).
  apply IH; [apply added_wf, Hwf | exact Hk |].
  cbn [added bit_array k num_elements].
  pose proof (sum_bools_set_bits (indices self it) (bit_array self)) as H.
  rewrite indices_length in H. nia.
Qed.

Lemma constructed_k_nonneg capacity fpp :
  valid_config capacity fpp -> 0 <= k (constructed capacity fpp).
Proof.
  intros Hv. cbn. apply int_of_float_nonneg.
  apply raw_k_sign; [apply Hv | apply (constructed_m_nonneg _ _ Hv)].
Qed.

Lemma constructed_no_bits capacity fpp :
  sum_bools (bit_array (constructed capacity fpp)) = 0.
Proof. cbn. apply sum_bools_repeat_false. Qed.

(** What every reachable state satisfies. *)
Lemma reachable_facts self :
  reachable self ->
  wf self /\ 1 <= n self /\ 0 <= m self /\ 0 <= k self
  /\ 0 <= num_elements self
  /\ 0 <= sum_bools (bit_array self) <= m self
  /\ sum_bools (bit_array self) <= k self * num_elements self.
Proof.
  intros Hr. pose proof (reachable_wf _ Hr) as Hwf.
  destruct Hr as (capacity & fpp & self0 & calls & Hv & Hnew & ->).
  apply (new_inv _ _ _ Hv) in Hnew. subst self0.
  set (s0 := constructed capacity fpp) in *.
  assert (Hwf0 : wf s0) by (apply constructed_wf, Hv).
  destruct (run_extends calls s0) as (Hn & _ & Hm & Hk & _).
  pose proof (constructed_m_nonneg _ _ Hv) as Hm0.
  pose proof (constructed_k_nonneg _ _ Hv) as Hk0.
  pose proof (run_counter calls s0 Hwf0) as Hc.
  pose proof (sum_bools_bounds (bit_array (run calls s0))) as Hb.
  pose proof (proj1 Hwf) as Hlen.
  assert (Hcount : 0 <= count_adds calls) by (unfold count_adds; lia).
  fold s0 in Hm0, Hk0.
  change (num_elements s0) with 0 in Hc.
  split; [exact Hwf|]. split; [rewrite Hn; apply Hv|].
  split; [lia|]. split; [lia|]. split; [lia|]. split; [lia|].
  apply run_set_bits; try assumption.
  unfold s0. rewrite constructed_no_bits. cbn [num_elements constructed]. lia.
Qed.

End Counting.

(** X8 -- The counter counts calls, not elements: on a filter built from
    a valid configuration, after any sequence of calls [num_elements] is
    the number of [add] calls in the sequence. *)
Theorem counter_counts_add_calls capacity fpp self0 calls :
  valid_config capacity fpp ->
  new capacity fpp = Ok self0 ->
  num_elements (run calls self0) = count_adds calls.
Proof.
  intros Hv Hnew. apply (new_inv _ _ _ Hv) in Hnew. subst self0.
  rewrite run_counter by (apply constructed_wf, Hv). reflexivity.
Qed.

Lemma counter_counts_add_calls_witness :
  num_elements
    (run [Add (Str "a"); Contains (Str "a"); Add (Str "a"); GetFillRatio]
         (constructed 100 (1 / 100)))
  = count_adds [Add (Str "a"); Contains (Str "a"); Add (Str "a"); GetFillRatio].
Proof.
  apply (counter_counts_add_calls 100 (1 / 100)).
  - split; [lia | lra].
  - apply new_valid. split; [lia | lra].
Defined.

(** X9 -- In a reachable state the number of set bits is at most [m] and
    at most [k] times the number of [add] calls made. *)
Theorem set_bits_bounded self :
  reachable self ->
  0 <= sum_bools (bit_array self) <= m self
  /\ sum_bools (bit_array self) <= k self * num_elements self.
Proof. intros Hr. apply reachable_facts in Hr. tauto. Qed.

Lemma set_bits_bounded_witness :
  let self := run [Add (Str "apple"); Add (Str "banana")] basic_demo_filter in
  0 <= sum_bools (bit_array self) <= m self
  /\ sum_bools (bit_array self) <= k self * num_elements self.
Proof. apply set_bits_bounded. apply reachable_basic_demo. Defined.

(* ================================================================== *)
(** * The statistics *)
(* ================================================================== *)

Section StatisticsFacts.

Local Open Scope R_scope.

Lemma get_fill_ratio_ok self :
  m self <> 0%Z ->
  get_fill_ratio self
  = (Ok (IZR (sum_bools (bit_array self)) / IZR (m self)), self).
Proof.
  intros Hm. unfold get_fill_ratio, bind, attr, lift.
  now rewrite int_truediv_nonzero.
Qed.

Lemma get_fill_ratio_zero_division self :
  m self = 0%Z -> get_fill_ratio self = (Raise ZeroDivisionError, self).
Proof.
  intros Hm. unfold get_fill_ratio, bind, attr, lift.
  now rewrite Hm, int_truediv_zero.
Qed.

Lemma estimate_ok self :
  m self <> 0%Z -> (0 <= k self)%Z ->
  get_current_false_positive_probability self
  = (Ok (estimate (m self) (k self) (num_elements self)), self).
Proof.
  intros Hm Hk.
  unfold get_current_false_positive_probability, estimate, bind, attr, lift, ret.
  destruct (num_elements self =? 0)%Z; [reflexivity|].
  rewrite int_truediv_nonzero by exact Hm.
  now rewrite float_pow_int_nonneg.
Qed.

Lemma estimate_zero_division self :
  m self = 0%Z -> num_elements self <> 0%Z ->
  get_current_false_positive_probability self
  = (Raise ZeroDivisionError, self).
Proof.
  intros Hm Hc.
  unfold get_current_false_positive_probability, bind, attr, lift, ret.
  destruct (num_elements self =? 0)%Z eqn:E; [apply Z.eqb_eq in E; contradiction|].
  now rewrite Hm, int_truediv_zero.
Qed.

Lemma exp_nonpos_le_1 x : x <= 0 -> 0 < exp x <= 1.
Proof.
  intros Hx. split; [apply exp_pos|].
  destruct (Rle_lt_or_eq_dec _ _ Hx) as [Hlt|Heq].
  - left. rewrite <- exp_0. apply exp_increasing. exact Hlt.
  - rewrite Heq, exp_0. lra.
Qed.

Lemma powerRZ_nonneg_pow x (j : Z) :
  (0 <= j)%Z -> powerRZ x j = x ^ Z.to_nat j.
Proof.
  intros Hj. rewrite pow_powerRZ. now rewrite Z2Nat.id.
Qed.

Lemma exponent_nonpos (bits rounds count : Z) :
  (0 < bits)%Z -> (0 <= rounds)%Z -> (0 <= count)%Z ->
  IZR (- rounds * count) / IZR bits <= 0.
Proof.
  intros Hb Hr Hc.
  assert (H1 : IZR (- rounds * count) <= 0) by (apply IZR_le; nia).
  assert (H2 : 0 < / IZR bits) by (apply Rinv_0_lt_compat, IZR_lt; exact Hb).
  unfold Rdiv. nra.
Qed.

(** The estimate is a probability. *)
Lemma estimate_range bits rounds count :
  (0 < bits)%Z -> (0 <= rounds)%Z -> (0 <= count)%Z ->
  0 <= estimate bits rounds count <= 1.
Proof.
  intros Hb Hr Hc. unfold estimate.
  destruct (count =? 0)%Z; [lra|].
  rewrite powerRZ_nonneg_pow by exact Hr.
  pose proof (exp_nonpos_le_1 _ (exponent_nonpos _ _ _ Hb Hr Hc)) as [He0 He1].
  split.
  - apply pow_le. lra.
  - apply Rle_trans with (1 ^ Z.to_nat rounds);
      [apply pow_incr; lra | rewrite pow1; lra].
Qed.

(** More elements never lower the estimate. *)
Lemma estimate_monotone bits rounds count count' :
  (0 < bits)%Z -> (0 <= rounds)%Z -> (0 <= count <= count')%Z ->
  estimate bits rounds count <= estimate bits rounds count'.
Proof.
  intros Hb Hr [Hc Hcc].
  destruct (Z.eq_dec count 0) as [->|Hne].
  - unfold estimate at 1. cbn [Z.eqb].
    apply estimate_range; lia.
  - unfold estimate.
    destruct (count =? 0)%Z eqn:E; [apply Z.eqb_eq in E; contradiction|].
    destruct (count' =? 0)%Z eqn:E'; [apply Z.eqb_eq in E'; lia|].
    rewrite !powerRZ_nonneg_pow by exact Hr.
    pose proof (exp_nonpos_le_1 _ (exponent_nonpos bits rounds count Hb Hr Hc))
      as [He0 He1].
    assert (Hle : IZR (- rounds * count') / IZR bits
                  <= IZR (- rounds * count) / IZR bits).
    { assert (H1 : IZR (- rounds * count') <= IZR (- rounds * count))
        by (apply IZR_le; nia).
      assert (H2 : 0 < / IZR bits) by (apply Rinv_0_lt_compat, IZR_lt; exact Hb).
      unfold Rdiv. nra. }
    assert (Hexp : exp (IZR (- rounds * count') / IZR bits)
                   <= exp (IZR (- rounds * count) / IZR bits)).
    { destruct (Rle_lt_or_eq_dec _ _ Hle) as [Hlt|Heq].
      - left. apply exp_increasing. exact Hlt.
      - rewrite Heq. lra. }
    apply pow_incr. lra.
Qed.

Lemma fill_ratio_range (set_count bits : Z) :
  (0 <= set_count <= bits)%Z -> (0 < bits)%Z ->
  0 <= IZR set_count / IZR bits <= 1.
Proof.
  intros [H0 H1] Hb.
  apply IZR_le in H0, H1. apply IZR_lt in Hb.
  assert (Hi : 0 < / IZR bits) by (apply Rinv_0_lt_compat; exact Hb).
  unfold Rdiv. split; [nra|].
  apply Rmult_le_reg_r with (IZR bits); [exact Hb|].
  rewrite Rmult_assoc, Rinv_l by lra. lra.
Qed.

End StatisticsFacts.

(** X10 -- In a reachable state with a non-empty bit array,
    [get_fill_ratio] returns the fraction of set bits, a number between
    0 and 1, and calls made afterwards never lower it. *)
Theorem fill_ratio_in_unit_interval self calls :
  reachable self ->
  1 <= m self ->
  exists r r',
    get_fill_ratio self = (Ok r, self)
    /\ get_fill_ratio (run calls self) = (Ok r', run calls self)
    /\ r = (IZR (sum_bools (bit_array self)) / IZR (m self))%R
    /\ (0 <= r <= r')%R /\ (r' <= 1)%R.
Proof.
  intros Hr Hm.
  pose proof (reachable_facts _ Hr) as (_ & _ & _ & _ & _ & Hb & _).
  pose proof (reachable_facts _ (reachable_run _ calls Hr))
    as (_ & _ & _ & _ & _ & Hb' & _).
  destruct (run_extends calls self) as (_ & _ & Hm' & _ & Hle).
  apply sum_bools_le in Hle. rewrite Hm' in Hb'.
  exists (IZR (sum_bools (bit_array self)) / IZR (m self))%R,
         (IZR (sum_bools (bit_array (run calls self))) / IZR (m self))%R.
  split; [apply get_fill_ratio_ok; lia|].
  split; [rewrite <- Hm'; apply get_fill_ratio_ok; lia|].
  split; [reflexivity|].
  pose proof (fill_ratio_range _ _ Hb ltac:(lia)) as [H0 _].
  pose proof (fill_ratio_range _ _ Hb' ltac:(lia)) as [_ H1].
  repeat split; try assumption.
  apply IZR_le in Hle.
  assert (Hi : (0 < / IZR (m self))%R)
    by (apply Rinv_0_lt_compat, IZR_lt; lia).
  unfold Rdiv. nra.
Qed.

Lemma fill_ratio_in_unit_interval_witness :
  let self := run [Add (Str "apple")] basic_demo_filter in
  let calls := [Add (Str "banana"); Contains (Int 1)] in
  exists r r',
    get_fill_ratio self = (Ok r, self)
    /\ get_fill_ratio (run calls self) = (Ok r', run calls self)
    /\ r = (IZR (sum_bools (bit_array self)) / IZR (m self))%R
    /\ (0 <= r <= r')%R /\ (r' <= 1)%R.
Proof.
  apply fill_ratio_in_unit_interval.
  - apply reachable_basic_demo.
  - vm_compute. discriminate.
Defined.

(** X11 -- In a reachable state with a non-empty bit array,
    [get_current_false_positive_probability] returns
    [(1 - e^(-k * num_elements / m)) ^ k] (0 before the first [add]), a
    number between 0 and 1, and calls made afterwards never lower it. *)
Theorem estimate_in_unit_interval self calls :
  reachable self ->
  1 <= m self ->
  exists q q',
    get_current_false_positive_probability self = (Ok q, self)
    /\ get_current_false_positive_probability (run calls self)
       = (Ok q', run calls self)
    /\ q = (if num_elements self =? 0 then 0
            else (1 - exp (IZR (- k self * num_elements self) / IZR (m self)))
                 ^ Z.to_nat (k self))%R
    /\ (0 <= q <= q')%R /\ (q' <= 1)%R.
Proof.
  intros Hr Hm.
  pose proof (reachable_facts _ Hr) as (Hwf & _ & _ & Hk & Hc & _).
  destruct (run_extends calls self) as (_ & _ & Hm' & Hk' & _).
  pose proof (run_counter calls self Hwf) as Hc'.
  assert (Hcount : 0 <= count_adds calls) by (unfold count_adds; lia).
  exists (estimate (m self) (k self) (num_elements self)),
         (estimate (m self) (k self) (num_elements (run calls self))).
  split; [apply estimate_ok; lia|].
  split; [rewrite <- Hm', <- Hk'; apply estimate_ok; lia|].
  split.
  { unfold estimate. destruct (num_elements self =? 0); [reflexivity|].
    now apply powerRZ_nonneg_pow. }
  pose proof (estimate_range (m self) (k self) (num_elements self)
                ltac:(lia) Hk Hc) as [H0 _].
  pose proof (estimate_range (m self) (k self) (num_elements (run calls self))
                ltac:(lia) Hk ltac:(lia)) as [_ H1].
  repeat split; try assumption.
  apply estimate_monotone; lia.
Qed.

Lemma estimate_in_unit_interval_witness :
  let self := run [Add (Str "apple")] basic_demo_filter in
  let calls := [Add (Str "banana"); Add (Str "apple")] in
  exists q q',
    get_current_false_positive_probability self = (Ok q, self)
    /\ get_current_false_positive_probability (run calls self)
       = (Ok q', run calls self)
    /\ q = (if num_elements self =? 0 then 0
            else (1 - exp (IZR (- k self * num_elements self) / IZR (m self)))
                 ^ Z.to_nat (k self))%R
    /\ (0 <= q <= q')%R /\ (q' <= 1)%R.
Proof.
  apply estimate_in_unit_interval.
  - apply reachable_basic_demo.
  - vm_compute. discriminate.
Defined.

(** X12 -- With an empty bit array ([m = 0]) the statistics raise
    [ZeroDivisionError]: [get_fill_ratio] and [print_stats] always, and
    [get_current_false_positive_probability] as soon as one element has
    been counted.  The valid configuration capacity=1, p=0.9 builds such
    a filter. *)
Theorem statistics_raise_on_empty_array self :
  m self = 0 ->
  get_fill_ratio self = (Raise ZeroDivisionError, self)
  /\ print_stats self = (Raise ZeroDivisionError, self)
  /\ (num_elements self <> 0 ->
      get_current_false_positive_probability self
      = (Raise ZeroDivisionError, self)).
Proof.
  intros Hm.
  pose proof (get_fill_ratio_zero_division self Hm) as Hf.
  split; [exact Hf|]. split; [|apply estimate_zero_division, Hm].
  unfold print_stats. unfold bind at 1.
  destruct (Z.eq_dec (num_elements self) 0) as [Hc|Hc].
  - unfold get_current_false_positive_probability at 1.
    unfold bind at 1. unfold attr at 1. rewrite Hc. cbn [Z.eqb]. unfold ret at 1.
    unfold bind at 1. now rewrite Hf.
  - now rewrite (estimate_zero_division self Hm Hc).
Qed.

Lemma statistics_raise_on_empty_array_witness :
  let self := run [Add (Str "apple")] (constructed 1 (9 / 10)) in
  get_fill_ratio self = (Raise ZeroDivisionError, self)
  /\ print_stats self = (Raise ZeroDivisionError, self)
  /\ (num_elements self <> 0 ->
      get_current_false_positive_probability self
      = (Raise ZeroDivisionError, self)).
Proof.
  apply statistics_raise_on_empty_array.
  rewrite constructed_1_nine_tenths. reflexivity.
Defined.

(** X13 -- In a reachable state with a non-empty bit array [print_stats]
    returns without raising, leaves the object untouched, and reports the
    counter, the number of set bits, [m / 8] bytes, and a load factor
    [num_elements / n] only once an element has been counted. *)
Theorem print_stats_returns self :
  reachable self ->
  1 <= m self ->
  exists r,
    print_stats self = (Ok r, self)
    /\ r_elements r = num_elements self
    /\ r_bits_set r = sum_bools (bit_array self)
    /\ r_memory_bytes r = (IZR (m self) / 8)%R
    /\ r_fill_ratio r = (IZR (sum_bools (bit_array self)) / IZR (m self))%R
    /\ r_load_factor r
       = (if 0 <? num_elements self
          then Some (IZR (num_elements self) / IZR (n self))%R
          else None).
Proof.
  intros Hr Hm.
  pose proof (reachable_facts _ Hr) as (_ & Hn & _ & Hk & _).
  unfold print_stats. unfold bind at 1.
  rewrite estimate_ok by lia. unfold bind at 1.
  rewrite get_fill_ratio_ok by lia.
  unfold bind, attr, lift, ret.
  rewrite (int_truediv_nonzero (m self) 8) by lia.
  rewrite float_div_nonzero by lra.
  destruct (0 <? num_elements self).
  - rewrite int_truediv_nonzero by lia. eexists. split; [reflexivity|].
    cbn. repeat split.
  - eexists. split; [reflexivity|]. cbn. repeat split.
Qed.

Lemma print_stats_returns_witness :
  let self := run [Add (Str "apple")] basic_demo_filter in
  exists r,
    print_stats self = (Ok r, self)
    /\ r_elements r = num_elements self
    /\ r_bits_set r = sum_bools (bit_array self)
    /\ r_memory_bytes r = (IZR (m self) / 8)%R
    /\ r_fill_ratio r = (IZR (sum_bools (bit_array self)) / IZR (m self))%R
    /\ r_load_factor r
       = (if 0 <? num_elements self
          then Some (IZR (num_elements self) / IZR (n self))%R
          else None).
Proof.
  apply print_stats_returns.
  - apply reachable_basic_demo.
  - vm_compute. discriminate.
Defined.

(* ================================================================== *)
(** * Sizing *)
(* ================================================================== *)

Section Sizing.

Local Open Scope R_scope.

Lemma ln_lt_0 x : 0 < x < 1 -> ln x < 0.
Proof. intros [H0 H1]. rewrite <- ln_1. apply ln_increasing; lra. Qed.

Lemma ln_le x y : 0 < x -> x <= y -> ln x <= ln y.
Proof.
  intros Hx [Hlt|Heq]; [left; apply ln_increasing; assumption | rewrite Heq; lra].
Qed.

(** The quotient for a target of at most 1/4. *)
Lemma raw_m_quarter capacity fpp :
  (1 <= capacity)%Z -> 0 < fpp <= / 4 ->
  2 * IZR capacity / ln 2 <= raw_m capacity fpp.
Proof.
  intros Hc [Hp0 Hp1]. unfold raw_m.
  assert (H4 : ln fpp <= - (2 * ln 2)).
  { replace (- (2 * ln 2)) with (ln (/ 4)).
    - apply ln_le; assumption.
    - rewrite ln_Rinv by lra. replace 4 with (2 * 2) by lra.
      rewrite ln_mult by lra. lra. }
  apply IZR_le in Hc. pose proof ln2_pos as Hl.
  assert (Hi : 0 < / ln 2) by (apply Rinv_0_lt_compat; exact Hl).
  replace (2 * IZR capacity / ln 2)
    with (IZR capacity * (2 * ln 2) / ln 2 ^ 2) by (field; lra).
  assert (Hi2 : 0 < / ln 2 ^ 2) by (apply Rinv_0_lt_compat; nra).
  unfold Rdiv. apply Rmult_le_compat_r; [lra | nra].
Qed.

End Sizing.

(** X15 -- A target of at most 1/4 gives a usable filter: for capacity
    >= 1 and 0 < p <= 0.25, a filter that the constructor returns has at
    least two bits per expected element, at least one hash round, and no
    more rounds than bits.  (The quotient is at least 2.88 * capacity and
    the product at least 1.38, far from the bounds stated.) *)
Theorem quarter_target_is_usable capacity fpp self :
  1 <= capacity -> (0 < fpp <= / 4)%R ->
  new capacity fpp = Ok self ->
  2 * capacity <= m self /\ 1 <= k self <= m self.
Proof.
  intros Hc [Hp0 Hp1] Hnew.
  assert (Hv : valid_config capacity fpp) by (split; [exact Hc | lra]).
  apply (new_inv _ _ _ Hv) in Hnew. subst self.
  pose proof (constructed_k_floor _ _ Hv) as Hk.
  set (bits := m (constructed capacity fpp)) in *.
  pose proof ln2_lower as Hl. pose proof ln2_upper as Hu.
  pose proof (raw_m_quarter capacity fpp Hc (conj Hp0 Hp1)) as Hq.
  assert (Hcr : (1 <= IZR capacity)%R) by (apply IZR_le; exact Hc).
  assert (Hi : (0 < / ln 2)%R) by (apply Rinv_0_lt_compat; lra).
  assert (Hinv : (ln 2 * / ln 2 = 1)%R) by (apply Rinv_r; lra).
  assert (Hbits : 2 * capacity <= bits).
  { unfold bits. cbn [m constructed].
    rewrite int_of_float_floor by (apply raw_m_nonneg, Hv).
    apply Zfloor_lub. rewrite mult_IZR.
    apply Rle_trans with (2 * IZR capacity / ln 2)%R; [|exact Hq].
    unfold Rdiv. nra. }
  split; [exact Hbits|].
  assert (Hbr : (2 * IZR capacity <= IZR bits)%R).
  { rewrite <- mult_IZR. apply IZR_le. exact Hbits. }
  assert (Hic : (0 < / IZR capacity)%R) by (apply Rinv_0_lt_compat; lra).
  assert (Hcc : (IZR capacity * / IZR capacity = 1)%R) by (apply Rinv_r; lra).
  assert (Hic1 : (/ IZR capacity <= 1)%R).
  { rewrite <- Rinv_1. apply Rinv_le_contravar; lra. }
  rewrite Hk. split.
  - apply Zfloor_lub. unfold raw_k, Rdiv.
    assert (H2 : (2 <= IZR bits * / IZR capacity)%R) by nra.
    nra.
  - assert (Hle : (raw_k bits capacity <= IZR bits)%R).
    { unfold raw_k, Rdiv.
      assert (H0 : (0 <= IZR bits)%R) by lra.
      assert (H1 : (IZR bits * / IZR capacity <= IZR bits)%R) by nra.
      assert (H2 : (0 <= IZR bits * / IZR capacity)%R) by nra.
      nra. }
    pose proof (Zfloor_bound (raw_k bits capacity)) as [Hf _].
    apply le_IZR. lra.
Qed.

Lemma quarter_target_is_usable_witness :
  2 * 1 <= m (constructed 1 (/ 4))
  /\ 1 <= k (constructed 1 (/ 4)) <= m (constructed 1 (/ 4)).
Proof.
  apply (quarter_target_is_usable 1 (/ 4)); [lia | lra |].
  apply new_valid. split; [lia | lra].
Defined.

(** X16 -- A freshly constructed filter with a non-empty bit array
    reports a fill ratio of 0 and a false-positive estimate of 0. *)
Theorem fresh_statistics_are_zero capacity fpp self :
  valid_config capacity fpp ->
  new capacity fpp = Ok self ->
  1 <= m self ->
  get_current_false_positive_probability self = (Ok 0%R, self)
  /\ get_fill_ratio self = (Ok 0%R, self).
Proof.
  intros Hv Hnew Hm. apply (new_inv _ _ _ Hv) in Hnew. subst self.
  apply fresh_statistics. exact Hm.
Qed.

Lemma fresh_statistics_are_zero_witness :
  get_current_false_positive_probability (constructed 100 (1 / 100))
  = (Ok 0%R, constructed 100 (1 / 100))
  /\ get_fill_ratio (constructed 100 (1 / 100))
     = (Ok 0%R, constructed 100 (1 / 100)).
Proof.
  apply (fresh_statistics_are_zero 100 (1 / 100)).
  - split; [lia | lra].
  - apply new_valid. split; [lia | lra].
  - rewrite constructed_100_hundredth. cbn. lia.
Defined.

Section NegativeCapacity.

Local Open Scope R_scope.

Lemma negative_capacity_parameters capacity fpp :
  (capacity <= -1)%Z -> 0 < fpp < 1 ->
  (m (constructed capacity fpp) <= 0)%Z
  /\ (0 <= k (constructed capacity fpp))%Z
  /\ bit_array (constructed capacity fpp) = []
  /\ ((1 <= k (constructed capacity fpp))%Z ->
      (m (constructed capacity fpp) < 0)%Z).
Proof.
  intros Hc Hp.
  assert (Hm : (int_of_float (raw_m capacity fpp) <= 0)%Z).
  { apply int_of_float_nonpos. unfold raw_m.
    pose proof (ln_lt_0 fpp Hp) as Hl. pose proof ln2_pos as H2.
    apply IZR_le in Hc.
    assert (Hi : 0 < / ln 2 ^ 2) by (apply Rinv_0_lt_compat; nra).
    unfold Rdiv. replace (IZR (-1)) with (-1) in Hc by reflexivity.
    assert (Hx : - IZR capacity * ln fpp <= 0) by nra.
    assert (Hy : 0 <= - (- IZR capacity * ln fpp) * / ln 2 ^ 2)
      by (apply Rmult_le_pos; lra).
    lra. }
  cbn [m k bit_array constructed].
  set (bits := int_of_float (raw_m capacity fpp)) in *.
  assert (Hcr : IZR capacity <= -1).
  { apply IZR_le in Hc. exact Hc. }
  assert (Hic : / IZR capacity < 0) by (apply Rinv_lt_0_compat; lra).
  pose proof ln2_pos as H2.
  split; [exact Hm|]. split; [|split].
  - apply int_of_float_nonneg. unfold raw_k, Rdiv.
    apply IZR_le in Hm. apply Rmult_le_pos; [|lra].
    replace (IZR bits * / IZR capacity)
      with ((- IZR bits) * (- / IZR capacity)) by ring.
    apply Rmult_le_pos; lra.
  - unfold list_repeat. now replace (Z.to_nat bits) with 0%nat by lia.
  - intros Hk. destruct (Z.eq_dec bits 0) as [E|E]; [|lia].
    rewrite E in Hk. unfold raw_k in Hk.
    rewrite int_of_float_lt_1 in Hk; [lia|].
    unfold Rdiv. rewrite Rmult_0_l, Rmult_0_l. lra.
Qed.

Lemma norm_index_empty {A} (i : Z) : norm_index (@nil A) i = Raise IndexError.
Proof.
  unfold norm_index. cbn [List.length Z.of_nat Z.opp].
  destruct (0 <=? i)%Z eqn:E0, (i <? 0)%Z eqn:E1; cbn [andb];
    try reflexivity.
  apply Z.leb_le in E0. apply Z.ltb_lt in E1. lia.
Qed.

End NegativeCapacity.

(** X17 -- A filter built with a negative capacity cannot be used: for
    capacity <= -1 and 0 < p < 1, a filter that the constructor returns
    with at least one hash round has an empty bit array, and both [add]
    and [contains] raise [IndexError] for every item, [add] without
    counting the element.  capacity=-100, p=0.01 is such a filter. *)
Theorem negative_capacity_filter_raises capacity fpp self it :
  capacity <= -1 -> (0 < fpp < 1)%R ->
  new capacity fpp = Ok self ->
  1 <= k self ->
  bit_array self = []
  /\ add it self = (Raise IndexError, self)
  /\ contains it self = (Raise IndexError, self).
Proof.
  intros Hc Hp Hnew Hk. apply new_returns in Hnew. subst self.
  destruct (negative_capacity_parameters capacity fpp Hc Hp)
    as (Hm & Hk0 & Hbits & Hneg).
  split; [exact Hbits|].
  specialize (Hneg Hk).
  set (self := constructed capacity fpp) in *.
  assert (Hr : exists rest, range (k self) = 0 :: rest).
  { unfold range. destruct (Z.to_nat (k self)) as [|j] eqn:E; [lia|].
    cbn [seq map]. eauto. }
  destruct Hr as (rest & Hr).
  split.
  - rewrite add_unfold. unfold bind at 1. unfold attr at 1. rewrite Hr.
    cbn [for_each]. unfold bind at 1 2. unfold add_round, bind at 1.
    rewrite hash_ok by lia. unfold bind at 1, attr at 1.
    rewrite Hbits. unfold bind at 1, lift at 1, setitem.
    rewrite norm_index_empty. reflexivity.
  - unfold contains, bind at 1. unfold attr at 1. rewrite Hr.
    cbn [contains_rounds]. unfold bind at 1.
    rewrite hash_ok by lia. unfold bind at 1, attr at 1.
    rewrite Hbits. unfold bind at 1, lift at 1, getitem.
    rewrite norm_index_empty. reflexivity.
Qed.

Lemma negative_capacity_filter_raises_witness :
  let self := mkFilter (-100) (1 / 100) (-958) 6 [] 0 in
  bit_array self = []
  /\ add (Str "apple") self = (Raise IndexError, self)
  /\ contains (Str "apple") self = (Raise IndexError, self).
Proof.
  apply (negative_capacity_filter_raises (-100) (1 / 100)).
  - lia.
  - lra.
  - rewrite new_ok by (lra || lia). now rewrite constructed_minus_100.
  - cbn. lia.
Defined.

(* ================================================================== *)
(** * The digested bytes *)
(* ================================================================== *)

Section Decimal.

#[local] Transparent str_of_int encode_utf8.

Lemma string_of_uint_no_underscore d :
  no_underscore (NilEmpty.string_of_uint d) = true.
Proof. induction d; cbn; auto. Qed.

Lemma str_of_int_no_underscore i : no_underscore (str_of_int i) = true.
Proof.
  unfold str_of_int, NilZero.string_of_int, NilZero.string_of_uint.
  destruct (Z.to_int i) as [d|d]; destruct d; cbn;
    auto using string_of_uint_no_underscore.
Qed.

Lemma to_int_proper i : Z.to_int i <> Pos Nil /\ Z.to_int i <> Neg Nil.
Proof.
  destruct i as [|q|q]; cbn; split; try discriminate;
    intros [= H]; exact (Unsigned.to_uint_nonnil _ H).
Qed.

(** [str] on [int] is injective. *)
Lemma str_of_int_inj i j : str_of_int i = str_of_int j -> i = j.
Proof.
  unfold str_of_int. intros H.
  destruct (to_int_proper i) as [Hi1 Hi2], (to_int_proper j) as [Hj1 Hj2].
  apply to_int_inj.
  pose proof (NilZero.isi _ Hi1 Hi2) as Ei.
  pose proof (NilZero.isi _ Hj1 Hj2) as Ej.
  rewrite H in Ei. congruence.
Qed.

(** A text is recovered from [text_suffix] when the suffix has no
    underscore: the separator is the last underscore. *)
Lemma salted_text_inj s1 : forall s2 d1 d2,
  no_underscore d1 = true -> no_underscore d2 = true ->
  (s1 ++ "_" ++ d1)%string = (s2 ++ "_" ++ d2)%string ->
  s1 = s2 /\ d1 = d2.
Proof.
  assert (Hmid : forall s d, no_underscore (s ++ String "_" d) = false).
  { induction s as [|c s IH]; intros d; cbn.
    - reflexivity.
    - rewrite IH. apply andb_false_r. }
  induction s1 as [|c s1 IH]; intros [|c' s2] d1 d2 H1 H2 E; cbn in E.
  - injection E as ->. auto.
  - injection E as <- ->. cbn in H1. now rewrite Hmid in H1.
  - injection E as -> <-. cbn in H2. now rewrite Hmid in H2.
  - injection E as -> E. destruct (IH s2 d1 d2 H1 H2 E) as [-> ->]. auto.
Qed.

Lemma encode_utf8_inj s1 s2 : encode_utf8 s1 = encode_utf8 s2 -> s1 = s2.
Proof.
  unfold encode_utf8. revert s2.
  induction s1 as [|c s1 IH]; intros [|c' s2] E; cbn in E;
    try discriminate; [reflexivity|].
  injection E as Ec E. f_equal; [|apply IH, E].
  apply Nat2Z.inj in Ec.
  rewrite <- (ascii_nat_embedding c), <- (ascii_nat_embedding c'). now rewrite Ec.
Qed.

(** Decimal text starts with a digit or a minus sign. *)
Lemma str_of_bool_not_decimal b i : str_of_bool b <> str_of_int i.
Proof.
  unfold str_of_int, NilZero.string_of_int, NilZero.string_of_uint.
  destruct (Z.to_int i) as [d|d]; destruct d, b; cbn; discriminate.
Qed.

Lemma hash_unfold it seed self :
  _hash it seed self
  = (int_mod (int_of_hex (MD5.hexdigest (hash_input it seed))) (m self), self).
Proof. destruct it; reflexivity. Qed.

End Decimal.

(** X18 -- The salt separates the items and the rounds: the bytes that
    [_hash] digests for an item and a seed ([hash_input], see
    [hash_unfold]) are those of another item and seed exactly when the
    two items have the same text [str(item)] and the seeds are equal.
    Two integers have the same text only if they are equal, and [True]
    and [False] have the text of no integer: [True] and [1], equal in
    Python, are different items for the filter. *)
Theorem hash_input_injective it1 seed1 it2 seed2 :
  (hash_input it1 seed1 = hash_input it2 seed2
   <-> item_text it1 = item_text it2 /\ seed1 = seed2)
  /\ (forall i j, item_text (Int i) = item_text (Int j) <-> i = j)
  /\ (forall b i, item_text (Bool b) <> item_text (Int i)).
Proof.
  split; [split|split].
  - intros E. apply encode_utf8_inj in E.
    apply salted_text_inj in E as [Et Es];
      try apply str_of_int_no_underscore.
    split; [exact Et | apply str_of_int_inj, Es].
  - intros [Et Es]. unfold hash_input. now rewrite Et, Es.
  - intros i j. split; [apply str_of_int_inj | now intros ->].
  - intros b i. apply str_of_bool_not_decimal.
Qed.

(* ================================================================== *)
(** * Which cells are set *)
(* ================================================================== *)

Section Cells.

Lemma bit_added self it j :
  wf self ->
  bit (added self it) j = true
  <-> bit self j = true \/ List.In j (indices self it).
Proof.
  intros Hwf. unfold bit. cbn [added bit_array]. rewrite nth_set_bits.
  rewrite orb_true_iff, andb_true_iff, Nat.ltb_lt. split.
  - intros [H|[Hex _]]; [left; exact H|].
    apply existsb_exists in Hex as (j0 & Hin & Heq).
    apply Nat.eqb_eq in Heq. subst j0. right. exact Hin.
  - intros [H|Hin]; [left; exact H|]. right. split.
    + apply existsb_exists. exists j. split; [exact Hin | apply Nat.eqb_refl].
    + apply (indices_in_range self it Hwf), Hin.
Qed.

Lemma added_extends self it : wf self -> extends self (added self it).
Proof.
  intros Hwf. pose proof (add_extends it self) as H.
  now rewrite add_state in H.
Qed.

(** A cell is set after a sequence of calls exactly when it was set
    before or is addressed by an item added in between. *)
Lemma bit_run calls : forall self j,
  wf self ->
  bit (run calls self) j = true
  <-> bit self j = true
      \/ exists it, List.In (Add it) calls /\ List.In j (indices self it).
Proof.
  induction calls as [|c calls IH]; intros self j Hwf.
  - cbn. split; [auto | intros [H|(it & [] & _)]; exact H].
  - rewrite run_cons, exec_state by exact Hwf.
    destruct c as [it|it|it| | |];
      [| rewrite IH by exact Hwf; split; intros [H|(it' & Hin & Hj)]; auto;
         right; exists it'; split; auto; [right; exact Hin|];
         destruct Hin as [E|Hin]; [discriminate | exact Hin] ..].
    rewrite IH by (apply added_wf, Hwf). rewrite bit_added by exact Hwf.
    split.
    + intros [[H|H]|(it' & Hin & Hj)].
      * left. exact H.
      * right. exists it. split; [left; reflexivity | exact H].
      * right. exists it'. split; [right; exact Hin|].
        now rewrite <- (extends_indices _ _ it' (added_extends self it Hwf)).
    + intros [H|(it' & [E|Hin] & Hj)].
      * left. left. exact H.
      * injection E as ->. left. right. exact Hj.
      * right. exists it'. split; [exact Hin|].
        now rewrite (extends_indices _ _ it' (added_extends self it Hwf)).
Qed.

Lemma bit_constructed capacity fpp j : bit (constructed capacity fpp) j = false.
Proof.
  unfold bit. cbn [bit_array constructed]. unfold list_repeat.
  generalize (Z.to_nat (int_of_float (raw_m capacity fpp))). intros c.
  revert j. induction c as [|c IH]; intros [|j]; cbn; auto.
Qed.

Lemma constructed_1_quarter :
  constructed 1 (/ 4) = mkFilter 1 (/ 4) 2 1 [false; false] 0.
Proof.
  pose proof ln2_lower as Hl. pose proof ln2_upper as Hu.
  assert (H4 : (ln (/ 4) = - (2 * ln 2))%R).
  { rewrite ln_Rinv by lra. replace 4%R with (2 * 2)%R by lra.
    rewrite ln_mult by lra. lra. }
  assert (Hm : int_of_float (raw_m 1 (/ 4)) = 2).
  { unfold raw_m. rewrite H4. apply int_of_float_div; [nra | lia | nra]. }
  assert (Hk : int_of_float (raw_k 2 1) = 1).
  { unfold raw_k. apply int_of_float_eq; [lia | lra]. }
  unfold constructed. rewrite Hm, Hk. reflexivity.
Qed.

End Cells.

(** X19 -- Only [add] sets bits, and only the cells of the item: on a
    filter built from a valid configuration, after any sequence of calls
    a cell is set exactly when it is one of the [k] cells of an item that
    some [add] call of the sequence was given. *)
Theorem cell_set_iff_addressed capacity fpp self0 calls j :
  valid_config capacity fpp ->
  new capacity fpp = Ok self0 ->
  let self := run calls self0 in
  bit self j = true
  <-> exists it i,
        List.In (Add it) calls /\ List.In i (range (k self))
        /\ j = Z.to_nat (index_of self it i).
Proof.
  intros Hv Hnew self. apply (new_inv _ _ _ Hv) in Hnew. subst self0.
  pose proof (constructed_wf capacity fpp (proj1 Hv)) as Hwf.
  pose proof (run_extends calls (constructed capacity fpp)) as He.
  fold self in He. unfold self at 1. rewrite bit_run by exact Hwf.
  rewrite bit_constructed. split.
  - intros [H|(it & Hin & Hj)]; [discriminate|].
    rewrite <- (extends_indices _ _ it He) in Hj.
    unfold indices in Hj. apply in_map_iff in Hj as (i & <- & Hi). eauto.
  - intros (it & i & Hin & Hi & ->). right. exists it. split; [exact Hin|].
    rewrite <- (extends_indices _ _ it He). unfold indices.
    apply in_map_iff. eauto.
Qed.

Lemma cell_set_iff_addressed_witness :
  let self := run [Add (Str "apple"); Contains (Str "kiwi")]
                  (constructed 100 (1 / 100)) in
  bit self 202 = true
  <-> exists it i,
        List.In (Add it) [Add (Str "apple"); Contains (Str "kiwi")]
        /\ List.In i (range (k self))
        /\ 202%nat = Z.to_nat (index_of self it i).
Proof.
  apply (cell_set_iff_addressed 100 (1 / 100)).
  - split; [lia | lra].
  - apply new_valid. split; [lia | lra].
Defined.

(** X20 -- A saturated filter reports everything: in a reachable state
    whose bit array has every cell set, [contains] returns [True] for
    every item. *)
Theorem saturated_filter_reports_everything self it :
  reachable self ->
  (forall j, (j < List.length (bit_array self))%nat -> bit self j = true) ->
  contains it self = (Ok true, self).
Proof.
  intros Hr Hfull. pose proof (reachable_wf _ Hr) as Hwf.
  rewrite contains_spec by exact Hwf. f_equal. f_equal.
  unfold all_set. apply forallb_forall. intros j Hj.
  apply Hfull, (indices_in_range self it Hwf), Hj.
Qed.

Lemma saturated_filter_reports_everything_witness :
  let self := run [Add (Str "apple"); Add (Str "banana")]
                  (mkFilter 1 (/ 4) 2 1 [false; false] 0) in
  contains (Str "never added") self = (Ok true, self).
Proof.
  apply saturated_filter_reports_everything.
  - exists 1, (/ 4)%R, (mkFilter 1 (/ 4) 2 1 [false; false] 0),
      [Add (Str "apple"); Add (Str "banana")].
    split; [split; [lia | lra]|]. split; [|reflexivity].
    rewrite new_ok by (lra || lia). now rewrite constructed_1_quarter.
  - intros j Hj. vm_compute in Hj.
    destruct j as [|[|j]]; [vm_compute; reflexivity | vm_compute; reflexivity|].
    exfalso. apply le_S_n, le_S_n in Hj. inversion Hj.
Defined.

(* ================================================================== *)
(** * After the first [add] *)
(* ================================================================== *)

Section FirstAdd.

Lemma sum_bools_pos bits : forall j,
  nth j bits false = true -> 1 <= sum_bools bits.
Proof.
  induction bits as [|b t IH]; intros [|j] H; cbn in H; try discriminate;
    rewrite sum_bools_cons.
  - subst b. pose proof (sum_bools_bounds t). lia.
  - specialize (IH j H). destruct b; lia.
Qed.

Lemma range_head j : 1 <= j -> List.In 0 (range j).
Proof.
  intros Hj. unfold range.
  destruct (Z.to_nat j) as [|c] eqn:E; [lia|]. cbn [seq map]. now left.
Qed.

End FirstAdd.

(** capacity=-100, p=0.01 is accepted: m=-958, k=6, no cell. *)
Example negative_capacity_demo :
  new (-100) (1 / 100) = Ok (mkFilter (-100) (1 / 100) (-958) 6 [] 0).
Proof. rewrite new_ok by (lra || lia). now rewrite constructed_minus_100. Qed.

(** X21 -- With at least one hash round, one [add] is enough to leave a
    trace: after any sequence of calls that contains an [add], at least
    one bit is set and [get_fill_ratio] returns a positive number. *)
Theorem add_sets_a_bit capacity fpp self0 calls it :
  valid_config capacity fpp ->
  new capacity fpp = Ok self0 ->
  1 <= k self0 ->
  List.In (Add it) calls ->
  let self := run calls self0 in
  1 <= sum_bools (bit_array self)
  /\ exists r, get_fill_ratio self = (Ok r, self) /\ (0 < r)%R.
Proof.
  intros Hv Hnew Hk Hin self.
  apply (new_inv _ _ _ Hv) in Hnew. subst self0.
  set (s0 := constructed capacity fpp) in *.
  assert (Hwf : wf s0) by (apply constructed_wf, Hv).
  assert (Hm : 0 < m s0) by (apply Hwf; lia).
  destruct (run_extends calls s0) as (_ & _ & Hm' & _). fold self in Hm'.
  assert (Hbit : bit self (Z.to_nat (index_of s0 it 0)) = true).
  { unfold self. apply bit_run; [exact Hwf|]. right. exists it.
    split; [exact Hin|]. unfold indices. apply in_map_iff.
    exists 0. split; [reflexivity | apply range_head, Hk]. }
  pose proof (sum_bools_pos _ _ Hbit) as Hsum.
  split; [exact Hsum|].
  eexists. split; [apply get_fill_ratio_ok; lia|].
  apply IZR_le in Hsum. rewrite Hm'.
  assert (Hi : (0 < / IZR (m s0))%R) by (apply Rinv_0_lt_compat, IZR_lt, Hm).
  unfold Rdiv. nra.
Qed.

Lemma add_sets_a_bit_witness :
  let self := run [Contains (Str "a"); Add (Str "a")]
                  (constructed 100 (1 / 100)) in
  1 <= sum_bools (bit_array self)
  /\ exists r, get_fill_ratio self = (Ok r, self) /\ (0 < r)%R.
Proof.
  apply (add_sets_a_bit 100 (1 / 100) _ _ (Str "a")).
  - split; [lia | lra].
  - apply new_valid. split; [lia | lra].
  - rewrite constructed_100_hundredth. cbn. lia.
  - right. left. reflexivity.
Defined.
